(** * Notes-sync backend: vector clocks, the text CRDT and the sync engine

    A shallow embedding of the Go packages [pkg/clock], [pkg/crdt],
    [internal/models], [internal/store] and [internal/sync], followed by the
    properties of the specification that concern them.

    Conventions of the embedding.
    - Go's [int] and [int64] are [Z]; the only arithmetic that can leave the
      64-bit range is [Increment], whose wrap-around is written out.
    - A Go [map[string]T] is a [gmap string T].  Reading a missing key gives
      the zero value ([vc_get]); iteration over a map is a fold, and every
      loop below that ranges over a map is independent of the order.
    - A Go string that is only compared or copied ([ID], [ClientID], [Type])
      is a [string] of bytes.  A string that is converted with [[]rune(s)]
      ([Content], [Text]) is kept as its sequence of code points, which is
      what the replay loop indexes.
    - [time.Time] is an instant, a [Z]; [Equal] and [Before] compare instants.
    - A run-time panic (slice bounds out of range) is the [Panic] outcome.
      Pointers are taken to be non-nil and maps allocated.
    - A Go [error] result is an [option string], [None] being [nil]. *)

From Stdlib Require Import ZArith Lia String Ascii List Bool.
From stdpp Require Import base option list gmap strings fin_maps fin_sets sorting.

Local Open Scope Z_scope.

(** ** Outcomes: normal return or panic *)

Inductive outcome (A : Type) : Type :=
| Ret (a : A)
| Panic (msg : string).
Arguments Ret {A} a.
Arguments Panic {A} msg.

#[global] Instance outcome_ret : MRet outcome := fun A a => Ret a.
#[global] Instance outcome_bind : MBind outcome := fun A B k m =>
  match m with
  | Ret a => k a
  | Panic msg => Panic msg
  end.

(** Go's [error]: [None] is [nil]. *)
Definition error : Type := option string.

(** ** Package [clock] *)

Module clock.

(** [type VectorClock map[string]int64] *)
Abbreviation VectorClock := (gmap string Z).

Definition NewVectorClock : VectorClock := ∅.

(** [vc[k]] as an rvalue: the zero value when the key is absent. *)
Definition vc_get (vc : VectorClock) (k : string) : Z := default 0 (vc !! k).

(** Wrap-around of a signed 64-bit integer. *)
Definition wrap64 (z : Z) : Z := (z + 2 ^ 63) mod 2 ^ 64 - 2 ^ 63.

(** [vc[clientID]++] *)
Definition Increment (vc : VectorClock) (clientID : string) : VectorClock :=
  <[clientID := wrap64 (vc_get vc clientID + 1)]> vc.

(** The body of the loop of [Update], for one entry of [other]. *)
Definition Update_step (clientID : string) (timestamp : Z) (vc : VectorClock)
  : VectorClock :=
  if vc_get vc clientID <? timestamp then <[clientID := timestamp]> vc else vc.

(** [Update] mutates the receiver; the result is the receiver afterwards. *)
Definition Update (vc other : VectorClock) : VectorClock :=
  map_fold Update_step vc other.

(** [Copy] builds a fresh map with the same entries. *)
Definition Copy (vc : VectorClock) : VectorClock :=
  map_fold (fun k v (newVC : VectorClock) => <[k := v]> newVC) ∅ vc.

(** The key set [allKeys] built by the first two loops of [Compare]. *)
Definition allKeys (vc other : VectorClock) : gset string :=
  dom vc ∪ dom other.

(** The body of the third loop of [Compare]; the state is
    [(hasLess, hasGreater)]. *)
Definition Compare_step (vc other : VectorClock) (k : string)
    (flags : bool * bool) : bool * bool :=
  let v1 := vc_get vc k in
  let v2 := vc_get other k in
  if v1 <? v2 then (true, snd flags)
  else if v1 >? v2 then (fst flags, true)
  else flags.

Definition Compare_flags (vc other : VectorClock) : bool * bool :=
  set_fold (Compare_step vc other) (false, false) (allKeys vc other).

(** Returns: -1 (vc < other), 0 (concurrent), 1 (vc > other) *)
Definition Compare (vc other : VectorClock) : Z :=
  let '(hasLess, hasGreater) := Compare_flags vc other in
  if hasLess && hasGreater then 0
  else if hasLess then -1
  else if hasGreater then 1
  else 0.

Definition IsConcurrent (vc other : VectorClock) : bool :=
  Compare vc other =? 0.

Definition HappensBefore (vc other : VectorClock) : bool :=
  Compare vc other =? -1.

End clock.

Import clock.

(** ** Package [sort] of the Go library

    [sort.Slice] is library code.  The embedding of [rebuildText] takes it as
    an interface; the instance below is what the Go library (1.19 and later,
    the module asks for 1.21) runs on a slice of at most twelve elements. *)

Class SliceSort : Type := {
  sort_Slice : ∀ A : Type, (A → A → bool) → list A → list A;
  (** The library moves elements only by swapping them. *)
  sort_Slice_perm : ∀ (A : Type) (less : A → A → bool) (x : list A),
    sort_Slice A less x ≡ₚ x
}.
Arguments sort_Slice {_ _} less x.

(** The inner loop of [insertionSort_func]: the element [x] at index [i]
    is swapped towards the front while it is [less] than its left neighbour.
    [front] is [data[:i]] read from right to left; so is the result, which
    has one element more. *)
Fixpoint sift {A : Type} (less : A → A → bool) (x : A) (front : list A) : list A :=
  match front with
  | [] => [x]
  | y :: ys => if less x y then y :: sift less x ys else x :: y :: ys
  end.

(** [insertionSort_func(data, 0, n)]: for [i] from 1 to [n-1], sift
    [data[i]] into [data[:i]]. *)
Definition insertionSort_func {A : Type} (less : A → A → bool) (x : list A)
  : list A :=
  rev (fold_left (fun front y => sift less y front) x []).

(** ** Package [crdt] *)

Module crdt.

(** A code point ([rune] is [int32] in Go). *)
Definition rune : Type := Z.

Module Operation.
Record t : Type := mk {
  ID : string;
  ClientID : string;
  Clock : VectorClock;
  Type_ : string;          (* "insert" or "delete" *)
  Position : Z;
  Content : list rune;
  Timestamp : Z
}.
End Operation.
Abbreviation Operation := Operation.t.

Module CRDT.
Record t : Type := mk {
  Operations : list Operation;
  Text : list rune;
  Clock : VectorClock
}.
End CRDT.
Abbreviation CRDT := CRDT.t.

Definition NewCRDT : CRDT :=
  {| CRDT.Operations := []; CRDT.Text := []; CRDT.Clock := NewVectorClock |}.

(** The comparison function handed to [sort.Slice] in [rebuildText]. *)
Definition less (a b : Operation) : bool :=
  let cmp := Compare (Operation.Clock a) (Operation.Clock b) in
  if cmp =? -1 then true
  else if cmp =? 1 then false
  else if negb (Operation.Timestamp a =? Operation.Timestamp b)
       then Operation.Timestamp a <? Operation.Timestamp b
       else String.ltb (Operation.ClientID a) (Operation.ClientID b).

(** [len(text)] *)
Definition len {A : Type} (s : list A) : Z := Z.of_nat (length s).

(** The slice expressions [s[:hi]] and [s[lo:]].  Both panic on an index
    out of range; every use below is guarded so that the upper bound is at
    most [len s]. *)
Definition slice_to {A : Type} (s : list A) (hi : Z) : outcome (list A) :=
  if (0 <=? hi) && (hi <=? len s) then Ret (take (Z.to_nat hi) s)
  else Panic "slice bounds out of range".

Definition slice_from {A : Type} (s : list A) (lo : Z) : outcome (list A) :=
  if (0 <=? lo) && (lo <=? len s) then Ret (drop (Z.to_nat lo) s)
  else Panic "slice bounds out of range".

(** The body of the replay loop of [rebuildText], for one operation. *)
Definition replay_step (text : list rune) (op : Operation) : outcome (list rune) :=
  if String.eqb (Operation.Type_ op) "insert" then
    if Operation.Position op <=? len text then
      let content := Operation.Content op in
      front ← slice_to text (Operation.Position op);
      back ← slice_from text (Operation.Position op);
      Ret (front ++ (content ++ back))
    else Ret text
  else if String.eqb (Operation.Type_ op) "delete" then
    if Operation.Position op <? len text then
      front ← slice_to text (Operation.Position op);
      back ← slice_from text (Operation.Position op + 1);
      Ret (front ++ back)
    else Ret text
  else Ret text.

Fixpoint replay (text : list rune) (sortedOps : list Operation)
  : outcome (list rune) :=
  match sortedOps with
  | [] => Ret text
  | op :: rest => text' ← replay_step text op; replay text' rest
  end.

Section WithSort.
Context `{SliceSort}.

(** [rebuildText] reconstructs the text from all operations. *)
Definition rebuildText (c : CRDT) : outcome CRDT :=
  let sortedOps := sort_Slice less (CRDT.Operations c) in
  text ← replay [] sortedOps;
  Ret {| CRDT.Operations := CRDT.Operations c;
          CRDT.Text := text;
          CRDT.Clock := CRDT.Clock c |}.

(** [ApplyOperation]: the receiver afterwards and the returned error. *)
Definition ApplyOperation (c : CRDT) (op : Operation) : outcome (CRDT * error) :=
  let c1 := {| CRDT.Operations := CRDT.Operations c;
               CRDT.Text := CRDT.Text c;
               CRDT.Clock := Update (CRDT.Clock c) (Operation.Clock op) |} in
  let c2 := {| CRDT.Operations := CRDT.Operations c1 ++ [op];
               CRDT.Text := CRDT.Text c1;
               CRDT.Clock := CRDT.Clock c1 |} in
  c3 ← rebuildText c2;
  Ret (c3, None).

Fixpoint ApplyOperations (c : CRDT) (ops : list Operation)
  : outcome (CRDT * error) :=
  match ops with
  | [] => Ret (c, None)
  | op :: rest =>
      '(c', err) ← ApplyOperation c op;
      match err with
      | Some e => Ret (c', Some e)
      | None => ApplyOperations c' rest
      end
  end.

(** [GetOperationsSince] returns operations after a given vector clock. *)
Definition GetOperationsSince (c : CRDT) (since : VectorClock) : list Operation :=
  List.filter
    (fun op => negb (HappensBefore (Operation.Clock op) since)
               && negb (Compare (Operation.Clock op) since =? 0))
    (CRDT.Operations c).

(** The map [existingIDs] of [Merge] after its first loop. *)
Definition existingIDs (ops : list Operation) : gmap string bool :=
  fold_left (fun m op => <[Operation.ID op := true]> m) ops ∅.

(** [m[id]] for a [map[string]bool]. *)
Definition has_id (m : gmap string bool) (id : string) : bool :=
  default false (m !! id).

(** [Merge] merges another CRDT into this one. *)
Definition Merge (c other : CRDT) : outcome (CRDT * error) :=
  let ids := existingIDs (CRDT.Operations c) in
  let newOps :=
    List.filter (fun op => negb (has_id ids (Operation.ID op)))
                (CRDT.Operations other) in
  ApplyOperations c newOps.

End WithSort.

End crdt.

(** Code points of an ASCII literal. *)
Definition runes (s : string) : list crdt.rune :=
  map (fun a => Z.of_N (N_of_ascii a)) (list_ascii_of_string s).

Import crdt.

(** ** Package [models] *)

Module models.

Module Note.
Record t : Type := mk {
  ID : string;
  Title : string;
  Content : list rune;
  CRDT : crdt.CRDT;
  Clock : VectorClock;
  CreatedAt : Z;
  UpdatedAt : Z;
  DeletedAt : option Z
}.
End Note.
Abbreviation Note := Note.t.

Module SyncRequest.
Record t : Type := mk {
  ClientID : string;
  Notes : list Note;
  LastSync : gmap string VectorClock   (* note_id -> vector clock *)
}.
End SyncRequest.
Abbreviation SyncRequest := SyncRequest.t.

Module Conflict.
Record t : Type := mk {
  NoteID : string;
  ClientClock : VectorClock;
  ServerClock : VectorClock;
  Resolution : string
}.
End Conflict.
Abbreviation Conflict := Conflict.t.

Module SyncResponse.
Record t : Type := mk {
  Notes : list Note;
  Conflicts : list Conflict;
  Clock : gmap string VectorClock
}.
End SyncResponse.
Abbreviation SyncResponse := SyncResponse.t.

End models.

Import models.

(** ** Package [store]

    The table [notes] of the database, keyed by its primary key [id].  A
    call of the store can fail (the database, or the JSON of a row); which
    calls do is given by [faults], one entry per call, [Some msg] making the
    call return the error [msg].  When the entries run out the calls
    succeed. *)

Module store.

(** A row of [notes] without its key; the columns [crdt_data] and
    [clock_data] hold JSON, kept here as the values it decodes to. *)
Record Row : Type := mkRow {
  title : string;
  content : list rune;
  crdt_data : CRDT;
  clock_data : VectorClock;
  created_at : Z;
  updated_at : Z;
  deleted_at : option Z
}.

Record Store : Type := mkStore {
  rows : gmap string Row;
  faults : list (option string)
}.

Definition row_of_note (note : Note) : Row :=
  {| title := Note.Title note;
     content := Note.Content note;
     crdt_data := Note.CRDT note;
     clock_data := Note.Clock note;
     created_at := Note.CreatedAt note;
     updated_at := Note.UpdatedAt note;
     deleted_at := Note.DeletedAt note |}.

(** What [Scan] and the two decodings fill in. *)
Definition note_of_row (id : string) (r : Row) : Note :=
  {| Note.ID := id;
     Note.Title := title r;
     Note.Content := content r;
     Note.CRDT := crdt_data r;
     Note.Clock := clock_data r;
     Note.CreatedAt := created_at r;
     Note.UpdatedAt := updated_at r;
     Note.DeletedAt := deleted_at r |}.

(** The outcome that [faults] holds for the [k]-th call from now. *)
Definition fault_at (s : Store) (k : nat) : error :=
  default None (faults s !! k).

(** Every call of the store takes the next entry of [faults]. *)
Definition next_fault (s : Store) : error * Store :=
  (fault_at s 0, {| rows := rows s; faults := drop 1 (faults s) |}).

(** [INSERT ... ON CONFLICT(id) DO UPDATE SET] every column but
    [created_at]. *)
Definition upsert (note : Note) (tbl : gmap string Row) : gmap string Row :=
  match tbl !! Note.ID note with
  | Some old =>
      <[Note.ID note :=
          {| title := Note.Title note;
             content := Note.Content note;
             crdt_data := Note.CRDT note;
             clock_data := Note.Clock note;
             created_at := created_at old;
             updated_at := Note.UpdatedAt note;
             deleted_at := Note.DeletedAt note |}]> tbl
  | None => <[Note.ID note := row_of_note note]> tbl
  end.

Definition SaveNote (s : Store) (note : Note) : Store * error :=
  let '(f, s1) := next_fault s in
  match f with
  | Some msg => (s1, Some msg)
  | None => ({| rows := upsert note (rows s1); faults := faults s1 |}, None)
  end.

(** [GetNote]: [(nil, nil)] when there is no row with this id. *)
Definition GetNote (s : Store) (id : string) : Store * (option Note * error) :=
  let '(f, s1) := next_fault s in
  match f with
  | Some msg => (s1, (None, Some msg))
  | None => (s1, (note_of_row id <$> rows s1 !! id, None))
  end.

(** [WHERE deleted_at IS NULL ORDER BY updated_at DESC]; rows with the
    same [updated_at] come in an order that SQL leaves open.  The list is
    ordered here by the instants; the database orders the text that it
    stored for the times, which is another order when the times carry
    different zone offsets.  The properties of this file are about which
    notes are listed, none is about their order. *)
Definition newer_first (a b : Note) : Prop := Note.UpdatedAt b ≤ Note.UpdatedAt a.
#[global] Instance newer_first_dec a b : Decision (newer_first a b) :=
  Z_le_dec (Note.UpdatedAt b) (Note.UpdatedAt a).

Definition GetAllNotes (s : Store) : Store * (list Note * error) :=
  let '(f, s1) := next_fault s in
  match f with
  | Some msg => (s1, ([], Some msg))
  | None =>
      let all := (fun kv => note_of_row (fst kv) (snd kv)) <$> map_to_list (rows s1) in
      let live := List.filter (fun n => bool_decide (Note.DeletedAt n = None)) all in
      (s1, (merge_sort newer_first live, None))
  end.

End store.

Import store.

(** ** Package [sync] *)

Module sync.

(** What the engine acts on: its store, the readings of [time.Now()] to
    come, and the lines written with [log.Printf]. *)
Record World : Type := mkWorld {
  store_of : Store;
  wall : list Z;
  log : list string
}.

Definition time_Now (w : World) : Z * World :=
  (default 0 (head (wall w)),
   {| store_of := store_of w; wall := tail (wall w); log := log w |}).

Definition log_Printf (line : string) (w : World) : World :=
  {| store_of := store_of w; wall := wall w; log := log w ++ [line] |}.

Definition with_store (w : World) (s : Store) : World :=
  {| store_of := s; wall := wall w; log := log w |}.

Section WithSort.
Context `{SliceSort}.

(** The two merging branches of [syncNote] share these statements:
    absorb the clock, copy the text, stamp, save. *)
Definition absorb (serverNote clientNote : Note) (merged : CRDT) (now : Z) : Note :=
  {| Note.ID := Note.ID serverNote;
     Note.Title := Note.Title serverNote;
     Note.Content := CRDT.Text merged;
     Note.CRDT := merged;
     Note.Clock := Update (Note.Clock serverNote) (Note.Clock clientNote);
     Note.CreatedAt := Note.CreatedAt serverNote;
     Note.UpdatedAt := now;
     Note.DeletedAt := Note.DeletedAt serverNote |}.

(** [syncNote] syncs a single note and handles conflicts. *)
Definition syncNote (w : World) (clientNote : Note) (clientID : string)
    (lastSync : option VectorClock) : outcome (World * (option Conflict * error)) :=
  let '(s1, (found, err)) := GetNote (store_of w) (Note.ID clientNote) in
  let w1 := with_store w s1 in
  match err with
  | Some e => Ret (w1, (None, Some ("failed to get server note: " +:+ e)))
  | None =>
  match found with
  | None =>
      let '(now, w2) := time_Now w1 in
      let clientNote' :=
        {| Note.ID := Note.ID clientNote;
           Note.Title := Note.Title clientNote;
           Note.Content := Note.Content clientNote;
           Note.CRDT := Note.CRDT clientNote;
           Note.Clock := Note.Clock clientNote;
           Note.CreatedAt := Note.CreatedAt clientNote;
           Note.UpdatedAt := now;
           Note.DeletedAt := Note.DeletedAt clientNote |} in
      let '(s3, err) := SaveNote (store_of w2) clientNote' in
      let w3 := with_store w2 s3 in
      match err with
      | Some e => Ret (w3, (None, Some ("failed to save new note: " +:+ e)))
      | None => Ret (w3, (None, None))
      end
  | Some serverNote =>
      let comparison := Compare (Note.Clock clientNote) (Note.Clock serverNote) in
      if comparison =? -1 then
        let w2 := log_Printf ("Client behind for note " +:+ Note.ID clientNote
                              +:+ ", server wins") w1 in
        Ret (w2, (None, None))
      else if comparison =? 1 then
        let w2 := log_Printf ("Server behind for note " +:+ Note.ID clientNote
                              +:+ ", client wins") w1 in
        '(merged, _) ← Merge (Note.CRDT serverNote) (Note.CRDT clientNote);
        let '(now, w3) := time_Now w2 in
        let serverNote' := absorb serverNote clientNote merged now in
        let '(s4, err) := SaveNote (store_of w3) serverNote' in
        let w4 := with_store w3 s4 in
        match err with
        | Some e => Ret (w4, (None, Some ("failed to update note: " +:+ e)))
        | None => Ret (w4, (None, None))
        end
      else if comparison =? 0 then
        let w2 := log_Printf ("Concurrent edits for note " +:+ Note.ID clientNote
                              +:+ ", merging with CRDT") w1 in
        '(merged, err) ← Merge (Note.CRDT serverNote) (Note.CRDT clientNote);
        match err with
        | Some e => Ret (w2, (None, Some ("failed to merge CRDTs: " +:+ e)))
        | None =>
            let '(now, w3) := time_Now w2 in
            let serverNote' := absorb serverNote clientNote merged now in
            let '(s4, err) := SaveNote (store_of w3) serverNote' in
            let w4 := with_store w3 s4 in
            match err with
            | Some e => Ret (w4, (None, Some ("failed to save merged note: " +:+ e)))
            | None =>
                let conflict :=
                  {| Conflict.NoteID := Note.ID clientNote;
                     Conflict.ClientClock := Note.Clock clientNote;
                     Conflict.ServerClock := Note.Clock serverNote';
                     Conflict.Resolution := "merged" |} in
                Ret (w4, (Some conflict, None))
            end
        end
      else Ret (w1, (None, None))
  end
  end.

(** The first loop of [Sync]: every note of the request goes through
    [syncNote]; an error is logged and the loop goes on with the next
    note. *)
Fixpoint syncNotes (w : World) (req : SyncRequest) (notes : list Note)
    (conflicts : list Conflict) : outcome (World * list Conflict) :=
  match notes with
  | [] => Ret (w, conflicts)
  | clientNote :: rest =>
      '(w1, (conflict, err)) ←
        syncNote w clientNote (SyncRequest.ClientID req)
                 (SyncRequest.LastSync req !! Note.ID clientNote);
      match err with
      | Some e =>
          let w2 := log_Printf ("Error syncing note " +:+ Note.ID clientNote
                                +:+ ": " +:+ e) w1 in
          syncNotes w2 req rest conflicts
      | None =>
          match conflict with
          | Some c => syncNotes w1 req rest (conflicts ++ [c])
          | None => syncNotes w1 req rest conflicts
          end
      end
  end.

(** The second loop of [Sync]: the notes the client has not seen, or of
    which the server has a strictly newer clock. *)
Fixpoint filterNotes (req : SyncRequest) (serverNotes : list Note)
    (response : SyncResponse) : SyncResponse :=
  match serverNotes with
  | [] => response
  | serverNote :: rest =>
      let lastSync := SyncRequest.LastSync req !! Note.ID serverNote in
      let send :=
        match lastSync with
        | None => true
        | Some ls => Compare (Note.Clock serverNote) ls =? 1
        end in
      if send then
        filterNotes req rest
          {| SyncResponse.Notes := SyncResponse.Notes response ++ [serverNote];
             SyncResponse.Conflicts := SyncResponse.Conflicts response;
             SyncResponse.Clock :=
               <[Note.ID serverNote := Note.Clock serverNote]>
                 (SyncResponse.Clock response) |}
      else filterNotes req rest response
  end.

(** [Sync] processes a sync request from a client. *)
Definition Sync (w : World) (req : SyncRequest)
  : outcome (World * (option SyncResponse * error)) :=
  '(w1, conflicts) ← syncNotes w req (SyncRequest.Notes req) [];
  let '(s2, (serverNotes, err)) := GetAllNotes (store_of w1) in
  let w2 := with_store w1 s2 in
  match err with
  | Some e => Ret (w2, (None, Some ("failed to get server notes: " +:+ e)))
  | None =>
      let response :=
        {| SyncResponse.Notes := [];
           SyncResponse.Conflicts := conflicts;
           SyncResponse.Clock := ∅ |} in
      Ret (w2, (Some (filterNotes req serverNotes response), None))
  end.

End WithSort.

End sync.

Import sync.

(** ** Package [crdt]: the constructors of operations

    [vc.String()] is [json.Marshal] of the map, library code; it is taken
    as a parameter.  [time.Now()] is the argument [now]. *)

Module create.

Section WithString.
Variable VectorClock_String : VectorClock → string.

(** [generateOperationID] generates a unique operation ID. *)
Definition generateOperationID (clientID : string) (vc : VectorClock) : string :=
  clientID +:+ "-" +:+ VectorClock_String vc.

(** [CreateInsertOperation]: the receiver afterwards (its clock has been
    incremented) and the operation. *)
Definition CreateInsertOperation (c : CRDT) (now : Z) (clientID : string)
    (position : Z) (content : list rune) : CRDT * Operation :=
  let clk := Increment (CRDT.Clock c) clientID in
  ({| CRDT.Operations := CRDT.Operations c;
      CRDT.Text := CRDT.Text c;
      CRDT.Clock := clk |},
   {| Operation.ID := generateOperationID clientID clk;
      Operation.ClientID := clientID;
      Operation.Clock := Copy clk;
      Operation.Type_ := "insert";
      Operation.Position := position;
      Operation.Content := content;
      Operation.Timestamp := now |}).

(** [CreateDeleteOperation]: the argument [length] is not used. *)
Definition CreateDeleteOperation (c : CRDT) (now : Z) (clientID : string)
    (position : Z) (length : Z) : CRDT * Operation :=
  let clk := Increment (CRDT.Clock c) clientID in
  ({| CRDT.Operations := CRDT.Operations c;
      CRDT.Text := CRDT.Text c;
      CRDT.Clock := clk |},
   {| Operation.ID := generateOperationID clientID clk;
      Operation.ClientID := clientID;
      Operation.Clock := Copy clk;
      Operation.Type_ := "delete";
      Operation.Position := position;
      Operation.Content := [];
      Operation.Timestamp := now |}).

End WithString.

End create.

(** ** Package [store]: soft deletion and the table [operations]

    The table [operations] is keyed by the id of the operation; its column
    [note_id] is declared as a foreign key, which SQLite does not enforce
    on a connection opened as [NewStore] opens it.  The calls below take
    their outcome from the [faults] of the store like the others. *)

Module oplog.

Record OpRow : Type := mkOpRow {
  note_id : string;
  client_id : string;
  operation_data : Operation;
  op_clock_data : VectorClock;
  timestamp : Z
}.

(** [UPDATE notes SET deleted_at = ? WHERE id = ?], with the reading [now]
    of [time.Now()]. *)
Definition DeleteNote (s : Store) (now : Z) (id : string) : Store * error :=
  let '(f, s1) := next_fault s in
  match f with
  | Some msg => (s1, Some msg)
  | None =>
      ({| rows :=
            alter (fun r => {| title := title r; content := content r;
                               crdt_data := crdt_data r;
                               clock_data := clock_data r;
                               created_at := created_at r;
                               updated_at := updated_at r;
                               deleted_at := Some now |}) id (rows s1);
          faults := faults s1 |}, None)
  end.

(** [INSERT INTO operations ... ON CONFLICT(id) DO NOTHING] *)
Definition SaveOperation (s : Store) (tbl : gmap string OpRow) (noteID : string)
    (op : Operation) : Store * gmap string OpRow * error :=
  let '(f, s1) := next_fault s in
  match f with
  | Some msg => (s1, tbl, Some msg)
  | None =>
      match tbl !! Operation.ID op with
      | Some _ => (s1, tbl, None)
      | None =>
          (s1,
           <[Operation.ID op :=
               {| note_id := noteID;
                  client_id := Operation.ClientID op;
                  operation_data := op;
                  op_clock_data := Operation.Clock op;
                  timestamp := Operation.Timestamp op |}]> tbl,
           None)
      end
  end.



End oplog.

Import oplog.

(** ** Package [sync]: the other methods of the engine *)

Module engine.

(** The engine's world together with the table [operations]. *)
Record State : Type := mkState {
  world : World;
  operations : gmap string OpRow
}.

Section WithSort.
Context `{SliceSort}.
Variable VectorClock_String : VectorClock → string.

(** [ApplyOperation] applies a real-time operation to a note. *)
Definition ApplyOperation (st : State) (noteID clientID : string) (op : Operation)
  : outcome (State * error) :=
  let w := world st in
  let '(s1, (found, err)) := GetNote (store_of w) noteID in
  let w1 := with_store w s1 in
  match err with
  | Some e =>
      Ret ({| world := w1; operations := operations st |},
           Some ("failed to get note: " +:+ e))
  | None =>
  match found with
  | None =>
      Ret ({| world := w1; operations := operations st |},
           Some ("note not found: " +:+ noteID))
  | Some note =>
      '(applied, err) ← crdt.ApplyOperation (Note.CRDT note) op;
      match err with
      | Some e =>
          Ret ({| world := w1; operations := operations st |},
               Some ("failed to apply operation: " +:+ e))
      | None =>
          let '(now, w2) := time_Now w1 in
          let note' :=
            {| Note.ID := Note.ID note;
               Note.Title := Note.Title note;
               Note.Content := CRDT.Text applied;
               Note.CRDT := applied;
               Note.Clock := Update (Note.Clock note) (Operation.Clock op);
               Note.CreatedAt := Note.CreatedAt note;
               Note.UpdatedAt := now;
               Note.DeletedAt := Note.DeletedAt note |} in
          let '(s3, err) := SaveNote (store_of w2) note' in
          let w3 := with_store w2 s3 in
          match err with
          | Some e =>
              Ret ({| world := w3; operations := operations st |},
                   Some ("failed to save note: " +:+ e))
          | None =>
              let '(s4, tbl, err) :=
                SaveOperation (store_of w3) (operations st) noteID op in
              let w4 := with_store w3 s4 in
              match err with
              | Some e =>
                  Ret ({| world := w4; operations := tbl |},
                       Some ("failed to save operation: " +:+ e))
              | None => Ret ({| world := w4; operations := tbl |}, None)
              end
          end
      end
  end
  end.

(** [GetNote] retrieves a note by ID. *)
Definition GetNote (st : State) (noteID : string) : State * (option Note * error) :=
  let '(s1, r) := store.GetNote (store_of (world st)) noteID in
  ({| world := with_store (world st) s1; operations := operations st |}, r).

(** [models.NewNote] *)
Definition NewNote (now : Z) (id title : string) (content : list rune) : Note :=
  {| Note.ID := id;
     Note.Title := title;
     Note.Content := content;
     Note.CRDT := NewCRDT;
     Note.Clock := NewVectorClock;
     Note.CreatedAt := now;
     Note.UpdatedAt := now;
     Note.DeletedAt := None |}.

(** [CreateNote] creates a new note. *)
Definition CreateNote (st : State) (id title : string) (content : list rune)
    (clientID : string) : outcome (State * (option Note * error)) :=
  let '(now, w1) := time_Now (world st) in
  let note := NewNote now id title content in
  let clk := Increment (Note.Clock note) clientID in
  let save (initialised : CRDT) (w2 : World)
      : outcome (State * (option Note * error)) :=
    let note' :=
      {| Note.ID := Note.ID note;
         Note.Title := Note.Title note;
         Note.Content := Note.Content note;
         Note.CRDT := initialised;
         Note.Clock := clk;
         Note.CreatedAt := Note.CreatedAt note;
         Note.UpdatedAt := Note.UpdatedAt note;
         Note.DeletedAt := Note.DeletedAt note |} in
    let '(s3, err) := SaveNote (store_of w2) note' in
    let st3 := {| world := with_store w2 s3; operations := operations st |} in
    match err with
    | Some e => Ret (st3, (None, Some ("failed to save note: " +:+ e)))
    | None => Ret (st3, (Some note', None))
    end in
  if bool_decide (content = []) then save (Note.CRDT note) w1
  else
    let '(now', w2) := time_Now w1 in
    let '(c1, op) :=
      create.CreateInsertOperation VectorClock_String (Note.CRDT note) now'
                                   clientID 0 content in
    '(c2, err) ← crdt.ApplyOperation c1 op;
    match err with
    | Some e =>
        Ret ({| world := w2; operations := operations st |},
             (None, Some ("failed to initialize CRDT: " +:+ e)))
    | None => save c2 w2
    end.

(** [DeleteNote] deletes a note. *)
Definition DeleteNote (st : State) (noteID : string) : State * error :=
  let '(now, w1) := time_Now (world st) in
  let '(s2, err) := oplog.DeleteNote (store_of w1) now noteID in
  ({| world := with_store w1 s2; operations := operations st |}, err).

(** [GetAllNotes] retrieves all notes. *)
Definition GetAllNotes (st : State) : State * (list Note * error) :=
  let '(s1, r) := store.GetAllNotes (store_of (world st)) in
  ({| world := with_store (world st) s1; operations := operations st |}, r).

End WithSort.

End engine.

(** * Vocabulary of the properties and concrete inputs *)

(** Some key of the union of the key sets reads strictly smaller in [a]
    than in [b]. *)
Definition some_smaller (a b : VectorClock) : Prop :=
  ∃ k, k ∈ dom a ∪ dom b ∧ vc_get a k < vc_get b k.

(** No counter of the clock is negative. *)
Definition nonneg_clock (vc : VectorClock) : Prop :=
  ∀ k v, vc !! k = Some v → 0 ≤ v.

(** The conflict record of the concurrent branch. *)
Definition merged_conflict (n : Note) (row : Row) : Conflict :=
  {| Conflict.NoteID := Note.ID n;
     Conflict.ClientClock := Note.Clock n;
     Conflict.ServerClock := Update (clock_data row) (Note.Clock n);
     Conflict.Resolution := "merged" |}.

(** The text of a fresh replica after the operations arrived in the order
    of [ops], each going through [ApplyOperation]. *)
Definition text_after `{SliceSort} (ops : list Operation) : outcome (list rune) :=
  r ← ApplyOperations NewCRDT ops; Ret (CRDT.Text (fst r)).

Definition insert_op (id clientID : string) (clk : VectorClock) (pos : Z)
    (content : string) (ts : Z) : Operation :=
  {| Operation.ID := id; Operation.ClientID := clientID; Operation.Clock := clk;
     Operation.Type_ := "insert"; Operation.Position := pos;
     Operation.Content := runes content; Operation.Timestamp := ts |}.

Definition delete_op (id clientID : string) (clk : VectorClock) (pos : Z)
    (ts : Z) : Operation :=
  {| Operation.ID := id; Operation.ClientID := clientID; Operation.Clock := clk;
     Operation.Type_ := "delete"; Operation.Position := pos;
     Operation.Content := []; Operation.Timestamp := ts |}.

(** Three inserts at the front of the text by three clients.  [opB] was
    made by a client that had seen [opA], on a machine whose wall clock is
    behind; [opC] is concurrent with both. *)
Definition opA : Operation :=
  insert_op "a-1" "a" {[ "a"%string := 1 ]} 0 "a" 10.
Definition opB : Operation :=
  insert_op "b-1" "b" {[ "a"%string := 1; "b"%string := 1 ]} 0 "b" 5.
Definition opC : Operation :=
  insert_op "c-1" "c" {[ "c"%string := 1 ]} 0 "c" 7.

(** The log of a replica that has applied [opA]. *)
Definition one_op_log : CRDT :=
  {| CRDT.Operations := [opA]; CRDT.Text := runes "a";
     CRDT.Clock := {[ "a"%string := 1 ]} |}.

(** The stored note "note-1": its log holds [opA], its clock is {a:1}. *)
Definition server_row : Row :=
  {| title := "Shopping"; content := runes "a"; crdt_data := one_op_log;
     clock_data := {[ "a"%string := 1 ]};
     created_at := 1; updated_at := 2; deleted_at := None |}.

(** A world whose table holds "note-1" only, with the given outcomes of the
    store calls to come. *)
Definition world_with (row : Row) (fs : list (option string)) : World :=
  {| store_of := {| rows := {[ "note-1"%string := row ]}; faults := fs |};
     wall := [100]; log := [] |}.

(** The client's copy of "note-1" after an edit made without having seen
    the server's: its log holds [opC], its clock is {c:1}. *)
Definition client_concurrent : Note :=
  {| Note.ID := "note-1"; Note.Title := "Shopping"; Note.Content := runes "c";
     Note.CRDT := {| CRDT.Operations := [opC]; CRDT.Text := runes "c";
                     CRDT.Clock := {[ "c"%string := 1 ]} |};
     Note.Clock := {[ "c"%string := 1 ]};
     Note.CreatedAt := 1; Note.UpdatedAt := 3; Note.DeletedAt := None |}.

(** A client's copy of "note-1" that has seen nothing yet. *)
Definition client_behind : Note :=
  {| Note.ID := "note-1"; Note.Title := "Shopping"; Note.Content := [];
     Note.CRDT := NewCRDT; Note.Clock := ∅;
     Note.CreatedAt := 1; Note.UpdatedAt := 1; Note.DeletedAt := None |}.

(** What the merge of the two logs gives. *)
Definition merged_log : CRDT :=
  {| CRDT.Operations := [opA; opC]; CRDT.Text := runes "ac";
     CRDT.Clock := {[ "a"%string := 1; "c"%string := 1 ]} |}.

Definition sync_request : SyncRequest :=
  {| SyncRequest.ClientID := "c"; SyncRequest.Notes := [client_concurrent];
     SyncRequest.LastSync := ∅ |}.

(** Clocks with negative counters, as a request can carry them. *)
Definition server_row_negative : Row :=
  {| title := "Shopping"; content := []; crdt_data := NewCRDT;
     clock_data := {[ "a"%string := -5 ]};
     created_at := 1; updated_at := 2; deleted_at := None |}.

Definition client_negative : Note :=
  {| Note.ID := "note-1"; Note.Title := "Shopping"; Note.Content := [];
     Note.CRDT := NewCRDT; Note.Clock := {[ "b"%string := -1 ]};
     Note.CreatedAt := 1; Note.UpdatedAt := 3; Note.DeletedAt := None |}.

(** The world after the concurrent edit of [client_concurrent] has been
    merged into [server_row]. *)
Definition merged_row : Row :=
  {| title := "Shopping"; content := runes "ac"; crdt_data := merged_log;
     clock_data := {[ "a"%string := 1; "c"%string := 1 ]};
     created_at := 1; updated_at := 100; deleted_at := None |}.

Definition world_after_merge : World :=
  {| store_of := {| rows := {[ "note-1"%string := merged_row ]}; faults := [] |};
     wall := [];
     log := ["Concurrent edits for note note-1, merging with CRDT"%string] |}.

(** The position of [op] is beyond what the guards of the replay accept
    for a text of this length. *)
Definition beyond_range (text : list rune) (op : Operation) : Prop :=
  (Operation.Type_ op = "insert"%string ∧ len text < Operation.Position op) ∨
  (Operation.Type_ op = "delete"%string ∧ len text ≤ Operation.Position op).

(** On the elements of [l], [less] is irreflexive and transitive, and two
    elements that it does not order are the same. *)
Definition strict_total_order_on {A : Type} (less : A → A → bool) (l : list A)
  : Prop :=
  (∀ x, x ∈ l → less x x = false) ∧
  (∀ x y z, x ∈ l → y ∈ l → z ∈ l →
     less x y = true → less y z = true → less x z = true) ∧
  (∀ x y, x ∈ l → y ∈ l → less x y = false → less y x = false → x = y).

(** The part of the slice in front of the element being sifted, read from
    right to left, is in order when no element is [less] than one to its
    right in this reading. *)
Definition not_less {A : Type} (less : A → A → bool) (a b : A) : Prop :=
  less a b = false.

(** The two operations of the unit test [TestCRDTOperationOrdering]. *)
Definition test_op1 : Operation :=
  insert_op "op1" "client1" {[ "client1"%string := 1 ]} 0 "A" 0.
Definition test_op2 : Operation :=
  insert_op "op2" "client2" {[ "client2"%string := 1 ]} 0 "B" 0.

(** * Properties *)

(** The values of Go's [int64]. *)
Definition is_int64 (z : Z) : Prop := - 2 ^ 63 ≤ z < 2 ^ 63.

(** [a] reads at most what [b] reads under every key. *)
Definition reads_le (a b : VectorClock) : Prop :=
  ∀ k, vc_get a k ≤ vc_get b k.

(** The text of the replica is what [rebuildText] makes of its log. *)
Definition text_in_step `{SliceSort} (c : CRDT) : Prop := rebuildText c = Ret c.

(** Every entry of the clock of a logged operation is at most what the
    clock of the replica reads under that key. *)
Definition clock_bounds_log (c : CRDT) : Prop :=
  ∀ op, op ∈ CRDT.Operations c →
  ∀ k v, Operation.Clock op !! k = Some v → v ≤ vc_get (CRDT.Clock c) k.

(** The clock of the replica is what [Update] makes of the clocks of its
    log, as it is after the operations went through [ApplyOperation] on a
    new replica. *)
Definition clock_of_log (c : CRDT) : Prop :=
  CRDT.Clock c = fold_left Update (Operation.Clock <$> CRDT.Operations c) ∅.

(** The identifiers of a log. *)
Definition ids (ops : list Operation) : list string := Operation.ID <$> ops.

(** [VectorClock.String] for the concrete runs: any function will do. *)
Definition clock_name (vc : VectorClock) : string := "clock".

(** The row of the operations table that [SaveOperation] writes for [opA]
    of "note-1". *)
Definition stored_opA : OpRow :=
  {| note_id := "note-1"; client_id := "a"; operation_data := opA;
     op_clock_data := Operation.Clock opA;
     timestamp := Operation.Timestamp opA |}.

(** [row'] holds what [row] held and possibly more: the same title,
    creation time and deletion mark; the log of [row] as the front of its
    log; and a clock that reads at least as much under every key. *)
Definition row_extends (row row' : Row) : Prop :=
  title row' = title row ∧ created_at row' = created_at row ∧
  deleted_at row' = deleted_at row ∧
  CRDT.Operations (crdt_data row) `prefix_of` CRDT.Operations (crdt_data row') ∧
  reads_le (clock_data row) (clock_data row').


(** A conflict record made for the note [n] of the request. *)
Definition conflict_of (c : Conflict) (n : Note) : Prop :=
  Conflict.NoteID c = Note.ID n ∧ Conflict.ClientClock c = Note.Clock n ∧
  Conflict.Resolution c = "merged"%string.

(** A note that the server has not seen. *)
Definition client_new : Note :=
  {| Note.ID := "note-2"; Note.Title := "Ideas"; Note.Content := runes "c";
     Note.CRDT := {| CRDT.Operations := [opC]; CRDT.Text := runes "c";
                     CRDT.Clock := {[ "c"%string := 1 ]} |};
     Note.Clock := {[ "c"%string := 1 ]};
     Note.CreatedAt := 7; Note.UpdatedAt := 7; Note.DeletedAt := None |}.

(** The engine on a table that holds "note-1", with an empty table of
    operations and the given outcomes of the store calls to come. *)
Definition engine_with (row : Row) (fs : list (option string)) : engine.State :=
  {| engine.world :=
       {| store_of := {| rows := {[ "note-1"%string := row ]}; faults := fs |};
          wall := [100; 101]; log := [] |};
     engine.operations := ∅ |}.

(** The table of notes of the engine's store, and the outcome that the
    store holds for its [k]-th call from now. *)
Definition table (st : engine.State) : gmap string Row :=
  rows (store_of (engine.world st)).

Definition outcomes (st : engine.State) (k : nat) : error :=
  fault_at (store_of (engine.world st)) k.

(** The row of a note after the engine applied [op] to it at [now]. *)
Definition row_after (row : Row) (applied : CRDT) (op : Operation) (now : Z) : Row :=
  {| title := title row; content := CRDT.Text applied; crdt_data := applied;
     clock_data := Update (clock_data row) (Operation.Clock op);
     created_at := created_at row; updated_at := now;
     deleted_at := deleted_at row |}.

(** The engine after [calls] calls of the store and one reading of the
    clock, with the given tables. *)
Definition engine_after (st : engine.State) (calls : nat)
    (notes : gmap string Row) (ops : gmap string OpRow) : engine.State :=
  {| engine.world :=
       {| store_of := {| rows := notes;
                         faults := drop calls (faults (store_of (engine.world st))) |};
          wall := tail (wall (engine.world st));
          log := log (engine.world st) |};
     engine.operations := ops |}.

(** ** Vector clocks *)

Section ClockFacts.
Implicit Types vc other a b : VectorClock.

Lemma Compare_step_fst vc other k flags :
  fst (Compare_step vc other k flags) = true ↔
  fst flags = true ∨ vc_get vc k < vc_get other k.
Proof.
  unfold Compare_step. cbv zeta.
  destruct (Z.ltb_spec (vc_get vc k) (vc_get other k)) as [Hlt|Hge]; simpl.
  - tauto.
  - destruct (vc_get vc k >? vc_get other k); simpl; split; try tauto;
      intros [?|?]; auto; lia.
Qed.

Lemma Compare_step_snd vc other k flags :
  snd (Compare_step vc other k flags) = true ↔
  snd flags = true ∨ vc_get other k < vc_get vc k.
Proof.
  unfold Compare_step. cbv zeta.
  destruct (Z.ltb_spec (vc_get vc k) (vc_get other k)) as [Hlt|Hge]; simpl.
  - split; [tauto | intros [?|?]; auto; lia].
  - rewrite Z.gtb_ltb.
    destruct (Z.ltb_spec (vc_get other k) (vc_get vc k)); simpl; split;
      try tauto; intros [?|?]; auto; lia.
Qed.

(** What the loop of [Compare] leaves in [hasLess] and [hasGreater]. *)
Lemma Compare_flags_spec vc other :
  (fst (Compare_flags vc other) = true ↔ some_smaller vc other) ∧
  (snd (Compare_flags vc other) = true ↔ some_smaller other vc).
Proof.
  unfold Compare_flags, some_smaller.
  replace (dom other ∪ dom vc) with (allKeys vc other)
    by (unfold allKeys; apply (comm_L (∪))).
  fold (allKeys vc other).
  generalize (allKeys vc other).
  apply (set_fold_ind_L
    (fun flags (X : gset string) =>
       (fst flags = true ↔ ∃ k, k ∈ X ∧ vc_get vc k < vc_get other k) ∧
       (snd flags = true ↔ ∃ k, k ∈ X ∧ vc_get other k < vc_get vc k))).
  - simpl. split; (split; [discriminate | intros (k & Hk & _); set_solver]).
  - intros x X r Hx [IH1 IH2]. split.
    + rewrite Compare_step_fst, IH1. split.
      * intros [(k & Hk & Hlt) | Hlt]; [exists k | exists x]; split; auto;
          apply elem_of_union; [by right | left; by apply elem_of_singleton].
      * intros (k & Hk & Hlt).
        apply elem_of_union in Hk as [Hk|Hk]; [| left; eauto].
        apply elem_of_singleton in Hk as ->. by right.
    + rewrite Compare_step_snd, IH2. split.
      * intros [(k & Hk & Hlt) | Hlt]; [exists k | exists x]; split; auto;
          apply elem_of_union; [by right | left; by apply elem_of_singleton].
      * intros (k & Hk & Hlt).
        apply elem_of_union in Hk as [Hk|Hk]; [| left; eauto].
        apply elem_of_singleton in Hk as ->. by right.
Qed.

(** A key outside both clocks reads zero on either side. *)
Lemma vc_get_outside a b k : k ∉ dom a ∪ dom b → vc_get a k = 0 ∧ vc_get b k = 0.
Proof.
  intros Hk. unfold vc_get.
  rewrite not_elem_of_union in Hk. destruct Hk as [Ha Hb].
  apply not_elem_of_dom in Ha, Hb. by rewrite Ha, Hb.
Qed.

Lemma Compare_range a b : Compare a b = -1 ∨ Compare a b = 0 ∨ Compare a b = 1.
Proof.
  unfold Compare. destruct (Compare_flags a b) as [[] []]; simpl; auto.
Qed.

Lemma Compare_before a b :
  Compare a b = -1 ↔ some_smaller a b ∧ ¬ some_smaller b a.
Proof.
  destruct (Compare_flags_spec a b) as [H1 H2]. rewrite <- H1, <- H2.
  unfold Compare. destruct (Compare_flags a b) as [[] []]; simpl;
    intuition congruence.
Qed.

Lemma Compare_after a b :
  Compare a b = 1 ↔ ¬ some_smaller a b ∧ some_smaller b a.
Proof.
  destruct (Compare_flags_spec a b) as [H1 H2]. rewrite <- H1, <- H2.
  unfold Compare. destruct (Compare_flags a b) as [[] []]; simpl;
    intuition congruence.
Qed.

(** The entries of the receiver after [Update]: the loop writes under a
    key of [other] when the receiver reads less there, and nowhere else.
    This does not depend on the order in which the map is ranged over. *)
Lemma lookup_Update vc other k :
  Update vc other !! k =
    match other !! k with
    | Some t => if vc_get vc k <? t then Some t else vc !! k
    | None => vc !! k
    end.
Proof.
  unfold Update. revert k.
  apply (map_fold_weak_ind
    (fun r (m : VectorClock) =>
       ∀ k, r !! k = match m !! k with
                     | Some t => if vc_get vc k <? t then Some t else vc !! k
                     | None => vc !! k
                     end)).
  - intros k. by rewrite lookup_empty.
  - intros i x m r Hi IH k. unfold Update_step.
    destruct (decide (i = k)) as [->|Hne].
    + rewrite lookup_insert_eq. specialize (IH k). rewrite Hi in IH.
      unfold vc_get at 1. rewrite IH. fold (vc_get vc k).
      destruct (vc_get vc k <? x); [by rewrite lookup_insert_eq | done].
    + rewrite (lookup_insert_ne m) by done. rewrite <- IH.
      destruct (vc_get r i <? x); [by rewrite lookup_insert_ne | done].
Qed.

(** What [Update] leaves to read under each key. *)
Lemma vc_get_Update vc other k :
  vc_get (Update vc other) k =
    match other !! k with
    | Some t => Z.max (vc_get vc k) t
    | None => vc_get vc k
    end.
Proof.
  unfold vc_get at 1. rewrite lookup_Update.
  destruct (other !! k) as [t|]; [| done].
  destruct (Z.ltb_spec (vc_get vc k) t); simpl; [lia|].
  fold (vc_get vc k). lia.
Qed.

(** [Copy] gives a map with the same entries. *)
Lemma Copy_same vc : Copy vc = vc.
Proof.
  unfold Copy.
  apply (map_fold_weak_ind (fun r (m : VectorClock) => r = m)); [done|].
  by intros i x m r _ ->.
Qed.

(** C2 (vector clock comparison): over the union of the keys, absent keys
    reading zero, [Compare a b] is 0 when some key is strictly smaller in
    [a] and some key is strictly smaller in [b], -1 when only the first
    holds, 1 when only the second holds, and 0 when neither holds, in which
    case the two clocks read the same under every key. *)
Theorem Compare_by_cases a b :
  (some_smaller a b ∧ some_smaller b a → Compare a b = 0) ∧
  (some_smaller a b ∧ ¬ some_smaller b a → Compare a b = -1) ∧
  (¬ some_smaller a b ∧ some_smaller b a → Compare a b = 1) ∧
  (¬ some_smaller a b ∧ ¬ some_smaller b a →
     Compare a b = 0 ∧ ∀ k, vc_get a k = vc_get b k).
Proof.
  destruct (Compare_flags_spec a b) as [H1 H2].
  split; [| split; [| split]].
  - intros [Ha Hb]. apply H1 in Ha. apply H2 in Hb.
    unfold Compare. destruct (Compare_flags a b); simpl in *; by subst.
  - intros Hc. by apply Compare_before.
  - intros Hc. by apply Compare_after.
  - intros [Ha Hb]. split.
    + rewrite <- H1 in Ha. rewrite <- H2 in Hb.
      unfold Compare. destruct (Compare_flags a b) as [[] []]; simpl in *;
        congruence.
    + intros k. destruct (decide (k ∈ dom a ∪ dom b)) as [Hk|Hk].
      * destruct (Z.lt_trichotomy (vc_get a k) (vc_get b k)) as [?|[?|?]];
          [exfalso; apply Ha; by exists k | done |].
        exfalso; apply Hb. exists k. split; [| done].
        apply elem_of_union. apply elem_of_union in Hk. tauto.
      * destruct (vc_get_outside a b k Hk) as [-> ->]. done.
Qed.

End ClockFacts.

(** ** The Go library's insertion sort is an implementation of [sort.Slice] *)

Lemma sift_perm {A : Type} (less : A → A → bool) (x : A) (front : list A) :
  sift less x front ≡ₚ x :: front.
Proof.
  induction front as [|y ys IH]; simpl; [done|].
  destruct (less x y); [| done].
  rewrite IH. apply perm_swap.
Qed.

Lemma insertionSort_func_perm {A : Type} (less : A → A → bool) (x : list A) :
  insertionSort_func less x ≡ₚ x.
Proof.
  unfold insertionSort_func. rewrite <- Permutation_rev.
  assert (Hgen : ∀ front, fold_left (fun front y => sift less y front) x front
                          ≡ₚ front ++ x).
  { induction x as [|y x IH]; intros front; simpl.
    - by rewrite app_nil_r.
    - rewrite IH, sift_perm. simpl. apply Permutation_middle. }
  apply (Hgen []).
Qed.

(** What [sort.Slice] runs on a slice of at most twelve elements.  On a
    longer slice the library runs another algorithm, for which this
    instance does not stand: where a theorem below names the instance,
    the slices that are sorted have at most twelve elements, or the
    theorem is about an order on which every sort agrees. *)
Definition go_sort_small : SliceSort :=
  {| sort_Slice := @insertionSort_func;
     sort_Slice_perm := @insertionSort_func_perm |}.

(** ** The replicated text *)

Section CrdtFacts.
Context `{SliceSort}.
Implicit Types c other : CRDT.
Implicit Types op : Operation.
Implicit Types text : list rune.

Lemma len_nonneg {A : Type} (s : list A) : 0 ≤ len s.
Proof. unfold len. lia. Qed.

(** A step of the replay panics exactly on a negative position of an
    insert or a delete. *)
Lemma replay_step_nonneg text op :
  0 ≤ Operation.Position op → ∃ text', replay_step text op = Ret text'.
Proof.
  intros Hpos. unfold replay_step, slice_to, slice_from.
  pose proof (len_nonneg text).
  destruct (String.eqb _ "insert").
  - destruct (Z.leb_spec (Operation.Position op) (len text)); [| eauto].
    rewrite !(proj2 (Z.leb_le _ _)) by lia. simpl. eauto.
  - destruct (String.eqb _ "delete"); [| eauto].
    destruct (Z.ltb_spec (Operation.Position op) (len text)); [| eauto].
    rewrite !(proj2 (Z.leb_le _ _)) by lia. simpl. eauto.
Qed.

Lemma replay_step_Panic text op msg :
  replay_step text op = Panic msg → Operation.Position op < 0.
Proof.
  intros Hp. destruct (Z.lt_ge_cases (Operation.Position op) 0) as [|Hge]; [done|].
  destruct (replay_step_nonneg text op Hge) as [t Ht]. congruence.
Qed.

Lemma replay_Panic text ops msg :
  replay text ops = Panic msg → ∃ op, op ∈ ops ∧ Operation.Position op < 0.
Proof.
  revert text. induction ops as [|op ops IH]; intros text; simpl; [discriminate|].
  destruct (replay_step text op) as [text'|m] eqn:Hstep; simpl.
  - intros Hr. destruct (IH _ Hr) as (o & Ho & Hneg).
    exists o. split; [by right | done].
  - intros _. exists op. split; [by left | by eapply replay_step_Panic].
Qed.

Lemma rebuildText_Ret c c' :
  rebuildText c = Ret c' →
  CRDT.Operations c' = CRDT.Operations c ∧ CRDT.Clock c' = CRDT.Clock c.
Proof.
  unfold rebuildText.
  destruct (replay [] _) as [t|m]; simpl; [| discriminate].
  intros [= <-]. done.
Qed.

Lemma rebuildText_Panic c msg :
  rebuildText c = Panic msg →
  ∃ op, op ∈ CRDT.Operations c ∧ Operation.Position op < 0.
Proof.
  unfold rebuildText.
  destruct (replay [] _) as [t|m] eqn:Hr; simpl; [discriminate|].
  intros _. destruct (replay_Panic _ _ _ Hr) as (o & Ho & Hneg).
  exists o. split; [| done].
  by rewrite <- (sort_Slice_perm _ less (CRDT.Operations c)).
Qed.

Lemma ApplyOperation_Ret c op c' err :
  ApplyOperation c op = Ret (c', err) →
  err = None ∧
  CRDT.Operations c' = CRDT.Operations c ++ [op] ∧
  CRDT.Clock c' = Update (CRDT.Clock c) (Operation.Clock op).
Proof.
  unfold ApplyOperation.
  destruct (rebuildText _) as [c3|m] eqn:Hr; simpl; [| discriminate].
  intros [= <- <-]. apply rebuildText_Ret in Hr as [-> ->]. done.
Qed.

Lemma ApplyOperation_Panic c op msg :
  ApplyOperation c op = Panic msg →
  ∃ o, o ∈ CRDT.Operations c ++ [op] ∧ Operation.Position o < 0.
Proof.
  unfold ApplyOperation.
  destruct (rebuildText _) as [c3|m] eqn:Hr; simpl; [discriminate|].
  intros _. by apply rebuildText_Panic in Hr.
Qed.

Lemma ApplyOperations_Ret c ops c' err :
  ApplyOperations c ops = Ret (c', err) →
  err = None ∧ CRDT.Operations c' = CRDT.Operations c ++ ops.
Proof.
  revert c. induction ops as [|op ops IH]; intros c; simpl.
  - intros [= <- <-]. by rewrite app_nil_r.
  - destruct (ApplyOperation c op) as [[c1 e1]|m] eqn:Ha; simpl; [| discriminate].
    apply ApplyOperation_Ret in Ha as (-> & Hops & _).
    intros Hr. apply IH in Hr as [-> ->].
    split; [done|]. by rewrite Hops, <- app_assoc.
Qed.

(** Whether a step of the replay panics does not depend on the text it is
    given: the guards let a negative position through for every text. *)
Lemma replay_step_Panic_any_text text text' op msg :
  replay_step text op = Panic msg → ∃ msg', replay_step text' op = Panic msg'.
Proof.
  intros Hp. pose proof (replay_step_Panic _ _ _ Hp) as Hneg.
  pose proof (len_nonneg text'). revert Hp.
  unfold replay_step, slice_to, slice_from.
  destruct (String.eqb _ "insert").
  - intros _. rewrite (proj2 (Z.leb_le _ _)) by lia.
    rewrite (proj2 (Z.leb_gt 0 (Operation.Position op))) by lia. simpl. eauto.
  - destruct (String.eqb _ "delete"); [| discriminate].
    intros _. rewrite (proj2 (Z.ltb_lt _ _)) by lia.
    rewrite (proj2 (Z.leb_gt 0 (Operation.Position op))) by lia. simpl. eauto.
Qed.

Lemma replay_Ret_steps text ops t :
  replay text ops = Ret t →
  ∀ o, o ∈ ops → ∀ text', ∃ t', replay_step text' o = Ret t'.
Proof.
  revert text. induction ops as [|op ops IH]; intros text; simpl.
  - intros _ o Ho. by apply elem_of_nil in Ho.
  - destruct (replay_step text op) as [text1|m] eqn:Hstep; simpl; [| discriminate].
    intros Hr o Ho text'. apply elem_of_cons in Ho as [->|Ho].
    + destruct (replay_step text' op) as [t'|m'] eqn:Hstep'; [eauto|].
      destruct (replay_step_Panic_any_text text' text op m' Hstep') as [m Hm].
      congruence.
    + by eapply IH.
Qed.

Lemma replay_steps_Ret ops :
  (∀ o, o ∈ ops → ∀ text', ∃ t', replay_step text' o = Ret t') →
  ∀ text, ∃ t, replay text ops = Ret t.
Proof.
  induction ops as [|op ops IH]; intros Hall text; simpl; [eauto|].
  destruct (Hall op (ltac:(by left)) text) as [t' ->]. simpl.
  apply IH. intros o Ho. apply Hall. by right.
Qed.

(** [rebuildText] returns on a log when it returned on a log that holds
    the same operations. *)
Lemma rebuildText_returns_again c c' r :
  rebuildText c = Ret r →
  (∀ o, o ∈ CRDT.Operations c' → o ∈ CRDT.Operations c) →
  ∃ r', rebuildText c' = Ret r'.
Proof.
  unfold rebuildText. intros Hr Hsub.
  destruct (replay [] (sort_Slice less (CRDT.Operations c))) as [t|m] eqn:Hc;
    [| discriminate].
  destruct (replay_steps_Ret (sort_Slice less (CRDT.Operations c'))) with (text := @nil rune)
    as [t' ->]; [| simpl; eauto].
  intros o Ho. apply (replay_Ret_steps _ _ _ Hc).
  rewrite (sort_Slice_perm _ less (CRDT.Operations c)).
  apply Hsub. by rewrite <- (sort_Slice_perm _ less (CRDT.Operations c')).
Qed.

(** C4 (direct apply is not idempotent): [ApplyOperation] has no check on
    [op.ID].  When a call of [ApplyOperation] returns, a second call with
    the same operation returns as well, both without error, and the log
    holds the operation twice at its end: its length has grown by two,
    whether or not the log held an operation with this id before. *)
Theorem ApplyOperation_twice_appends_twice c op c1 e1 :
  ApplyOperation c op = Ret (c1, e1) →
  ∃ c2,
    ApplyOperation c1 op = Ret (c2, None) ∧
    e1 = None ∧
    CRDT.Operations c1 = CRDT.Operations c ++ [op] ∧
    CRDT.Operations c2 = CRDT.Operations c ++ [op; op] ∧
    length (CRDT.Operations c2) = (length (CRDT.Operations c) + 2)%nat.
Proof.
  intros H1. pose proof (ApplyOperation_Ret _ _ _ _ H1) as (-> & Hops1 & _).
  assert (H2 : ∃ c2 e2, ApplyOperation c1 op = Ret (c2, e2)).
  { revert H1. unfold ApplyOperation.
    destruct (rebuildText _) as [r|m] eqn:Hr; simpl; [| discriminate].
    intros _.
    destruct (rebuildText_returns_again _
                {| CRDT.Operations := CRDT.Operations c1 ++ [op];
                   CRDT.Text := CRDT.Text c1;
                   CRDT.Clock := Update (CRDT.Clock c1) (Operation.Clock op) |}
                _ Hr) as [r' ->]; [| simpl; eauto].
    simpl. intros o. rewrite Hops1, !elem_of_app. tauto. }
  destruct H2 as (c2 & e2 & H2).
  pose proof (ApplyOperation_Ret _ _ _ _ H2) as (-> & Hops2 & _).
  exists c2. split; [done|]. split; [done|]. split; [done|].
  rewrite Hops2, Hops1, <- app_assoc. simpl. split; [done|].
  rewrite length_app. simpl. lia.
Qed.

(** The identifiers that [existingIDs] marks are those of the log. *)
Lemma has_id_fold (ops : list Operation) (m : gmap string bool) id :
  has_id (fold_left (fun m op => <[Operation.ID op := true]> m) ops m) id = true ↔
  has_id m id = true ∨ ∃ op, op ∈ ops ∧ Operation.ID op = id.
Proof.
  revert m. induction ops as [|o ops IH]; intros m; simpl.
  - split; [auto | intros [?|(o & Ho & _)]; [done | by apply elem_of_nil in Ho]].
  - rewrite IH. unfold has_id at 1.
    destruct (decide (Operation.ID o = id)) as [Heq|Hne].
    + rewrite Heq, lookup_insert_eq. simpl. split; [| auto].
      intros _. right. exists o. split; [by left | done].
    + rewrite lookup_insert_ne by done. fold (has_id m id). split.
      * intros [?|(o' & Ho' & Hid)]; [by left|].
        right. exists o'. split; [by right | done].
      * intros [?|(o' & Ho' & Hid)]; [by left|].
        apply elem_of_cons in Ho' as [->|Ho']; [done|]. right. eauto.
Qed.

Lemma has_id_existingIDs (ops : list Operation) id :
  has_id (existingIDs ops) id = true ↔ ∃ op, op ∈ ops ∧ Operation.ID op = id.
Proof.
  unfold existingIDs. rewrite has_id_fold. unfold has_id.
  rewrite lookup_empty. simpl. split; [intros [?|?]; done | auto].
Qed.

Lemma filter_none {A : Type} (f : A → bool) (l : list A) :
  (∀ x, x ∈ l → f x = false) → List.filter f l = [].
Proof.
  induction l as [|x l IH]; simpl; intros Hall; [done|].
  rewrite (Hall x) by (by left). apply IH. intros y Hy. apply Hall. by right.
Qed.

(** After a merge nothing of the source is new any more. *)
Lemma Merge_leaves_nothing_new c other c' err :
  Merge c other = Ret (c', err) →
  List.filter (fun op => negb (has_id (existingIDs (CRDT.Operations c'))
                                      (Operation.ID op)))
              (CRDT.Operations other) = [].
Proof.
  unfold Merge. intros Hm. apply ApplyOperations_Ret in Hm as [_ Hops].
  apply filter_none. intros o Ho. apply negb_false_iff.
  apply has_id_existingIDs. rewrite Hops.
  destruct (has_id (existingIDs (CRDT.Operations c)) (Operation.ID o)) eqn:Hid.
  - apply has_id_existingIDs in Hid as (o' & Ho' & Heq).
    exists o'. split; [| done]. apply elem_of_app. by left.
  - exists o. split; [| done]. apply elem_of_app. right.
    apply list_elem_of_In, filter_In. split; [by apply list_elem_of_In|].
    by rewrite Hid.
Qed.

(** C3 (idempotent merge): merging the same source twice in a row is the
    same computation as merging it once.  When the first call returns, the
    second finds every identifier of the source in the log, appends
    nothing and returns the same CRDT, so the operation count and the text
    are those of a single merge; when the first call panics, so does the
    pair. *)
Theorem Merge_twice_is_Merge_once c other :
  (Merge c other ≫= (fun r => Merge (fst r) other)) = Merge c other ∧
  match Merge c other with
  | Ret (c1, _) =>
      match Merge c1 other with
      | Ret (c2, _) =>
          length (CRDT.Operations c2) = length (CRDT.Operations c1) ∧
          CRDT.Text c2 = CRDT.Text c1
      | Panic _ => False
      end
  | Panic _ => True
  end.
Proof.
  destruct (Merge c other) as [[c1 e1]|m] eqn:Hm; simpl; [| done].
  pose proof (Merge_leaves_nothing_new _ _ _ _ Hm) as Hnone.
  unfold Merge in Hm. apply ApplyOperations_Ret in Hm as [-> _].
  unfold Merge. rewrite Hnone. simpl. done.
Qed.

End CrdtFacts.

(** ** Replicas that hold the same operations *)

(** The comparison of [rebuildText] orders the three in a cycle: [opA]
    before [opB] by the clocks, [opB] before [opC] and [opC] before [opA]
    by the timestamps. *)
Lemma less_cycle :
  less opA opB = true ∧ less opB opC = true ∧ less opC opA = true ∧
  less opB opA = false ∧ less opC opB = false ∧ less opA opC = false.
Proof. vm_compute. repeat split. Qed.

(** C1 (convergence), evaluated: two fresh replicas receive the same three
    operations, one in the order [opA, opB, opC] and the other in the order
    [opC, opA, opB].  With the sort the Go library runs on three elements,
    [rebuildText] gives the first the text "cba" and the second "bac". *)
Theorem rebuildText_depends_on_arrival_order :
  [opA; opB; opC] ≡ₚ [opC; opA; opB] ∧
  @text_after go_sort_small [opA; opB; opC] = Ret (runes "cba") ∧
  @text_after go_sort_small [opC; opA; opB] = Ret (runes "bac") ∧
  runes "cba" ≠ runes "bac".
Proof.
  split; [| split; [| split]].
  - change [opC; opA; opB] with ([opC] ++ [opA; opB]).
    change [opA; opB; opC] with ([opA; opB] ++ [opC]).
    apply Permutation_app_comm.
  - vm_compute. reflexivity.
  - vm_compute. reflexivity.
  - vm_compute. discriminate.
Qed.

(** ** Positions out of range *)

Section Boundary.
Context `{SliceSort}.

Lemma sort_Slice_singleton {A : Type} (f : A → A → bool) (x : A) :
  sort_Slice f [x] = [x].
Proof. apply Permutation_singleton_r, sort_Slice_perm. Qed.

(** C5 (boundary skip), evaluated at a negative position: the guard of the
    insert case, [op.Position <= len(text)], lets -1 through, and so does
    the guard of the delete case, [op.Position < len(text)];
    [text[:op.Position]] then panics.  The operation is not skipped. *)
Theorem negative_position_panics :
  ApplyOperation NewCRDT (insert_op "a-1" "a" {[ "a"%string := 1 ]} (-1) "x" 0)
    = Panic "slice bounds out of range" ∧
  replay (runes "abc") [delete_op "a-2" "a" {[ "a"%string := 2 ]} (-1) 0]
    = Panic "slice bounds out of range".
Proof.
  split; [| reflexivity].
  unfold ApplyOperation, rebuildText. simpl.
  rewrite sort_Slice_singleton. reflexivity.
Qed.

(** The part of the boundary behaviour that the guards do implement: an
    insert beyond the end of the text and a delete at or beyond it leave
    the text as it is, and return. *)
Lemma replay_step_insert_beyond text op :
  Operation.Type_ op = "insert"%string → len text < Operation.Position op →
  replay_step text op = Ret text.
Proof.
  intros Ht Hpos. unfold replay_step. rewrite Ht. simpl.
  by rewrite (proj2 (Z.leb_gt _ _)).
Qed.

Lemma replay_step_delete_beyond text op :
  Operation.Type_ op = "delete"%string → len text ≤ Operation.Position op →
  replay_step text op = Ret text.
Proof.
  intros Ht Hpos. unfold replay_step. rewrite Ht. simpl.
  by rewrite (proj2 (Z.ltb_ge _ _)).
Qed.

End Boundary.

(** ** Operations since a clock *)

(** [GetOperationsSince] keeps the operations whose clock compares as
    strictly after [since]. *)
Lemma GetOperationsSince_spec (c : CRDT) (since : VectorClock) (op : Operation) :
  op ∈ GetOperationsSince c since ↔
  op ∈ CRDT.Operations c ∧ Compare (Operation.Clock op) since = 1.
Proof.
  unfold GetOperationsSince, HappensBefore.
  rewrite list_elem_of_In, filter_In, <- list_elem_of_In.
  destruct (Compare_range (Operation.Clock op) since) as [-> | [-> | ->] ]; simpl;
    intuition congruence.
Qed.

(** C8 (incremental catch-up), evaluated: the log holds [opA], made at
    clock {a:1}, and the caller is at clock {c:1}.  The two clocks are
    concurrent, so the operation is not causally before or equal to the
    caller's clock, yet [GetOperationsSince] leaves it out: [Compare]
    answers 0 for concurrent clocks as it does for equal ones, and the
    test [Compare(since) != 0] drops both. *)
Theorem GetOperationsSince_omits_concurrent :
  let since : VectorClock := {[ "c"%string := 1 ]} in
  some_smaller (Operation.Clock opA) since ∧
  some_smaller since (Operation.Clock opA) ∧
  Compare (Operation.Clock opA) since = 0 ∧
  GetOperationsSince one_op_log since = [].
Proof.
  cbv zeta. split; [| split; [| split]].
  - exists "c"%string. split; [set_solver | by vm_compute].
  - exists "a"%string. split; [set_solver | by vm_compute].
  - vm_compute. reflexivity.
  - vm_compute. reflexivity.
Qed.

Lemma ApplyOperation_twice_appends_twice_witness :
  ∃ c1 c2,
    @ApplyOperation go_sort_small NewCRDT opA = Ret (c1, None) ∧
    @ApplyOperation go_sort_small c1 opA = Ret (c2, None) ∧
    CRDT.Operations c2 = [opA; opA] ∧
    length (CRDT.Operations c2) = 2%nat.
Proof.
  destruct (@ApplyOperation go_sort_small NewCRDT opA) as [[c1 e1]|m] eqn:H1;
    [| vm_compute in H1; discriminate H1].
  destruct (@ApplyOperation_twice_appends_twice go_sort_small NewCRDT opA c1 e1 H1)
    as (c2 & H2 & -> & _ & Hops & Hlen).
  exists c1, c2. split; [reflexivity|]. split; [exact H2|].
  split; [exact Hops | exact Hlen].
Defined.

(** ** The sync engine *)

Section SyncFacts.
Context `{SliceSort}.
Implicit Types w : World.
Implicit Types n : Note.
Implicit Types s : Store.

Lemma fault_at_next s k :
  fault_at {| rows := rows s; faults := drop 1 (faults s) |} k = fault_at s (S k).
Proof. unfold fault_at. simpl. by rewrite lookup_drop. Qed.

Lemma lookup_upsert_existing (note : Note) (tbl : gmap string Row) (old : Row) :
  tbl !! Note.ID note = Some old →
  upsert note tbl !! Note.ID note =
    Some {| title := Note.Title note; content := Note.Content note;
            crdt_data := Note.CRDT note; clock_data := Note.Clock note;
            created_at := created_at old; updated_at := Note.UpdatedAt note;
            deleted_at := Note.DeletedAt note |}.
Proof. intros Hold. unfold upsert. rewrite Hold. apply lookup_insert_eq. Qed.

(** A failure of the load is what [syncNote] returns. *)
Lemma syncNote_load_fails w n clientID lastSync msg :
  fault_at (store_of w) 0 = Some msg →
  syncNote w n clientID lastSync =
    Ret (with_store w (snd (next_fault (store_of w))),
         (None, Some ("failed to get server note: " +:+ msg))).
Proof.
  intros Hf. unfold syncNote, GetNote, next_fault. rewrite Hf. reflexivity.
Qed.

(** C6 (causal discard): when the load succeeds and the client clock
    compares strictly before the clock of the stored note, [syncNote]
    returns no conflict and no error, the table is as it was, and the load
    is the only call the store has seen. *)
Theorem syncNote_client_behind w n clientID lastSync row :
  fault_at (store_of w) 0 = None →
  rows (store_of w) !! Note.ID n = Some row →
  Compare (Note.Clock n) (clock_data row) = -1 →
  ∃ w', syncNote w n clientID lastSync = Ret (w', (None, None)) ∧
        rows (store_of w') = rows (store_of w) ∧
        faults (store_of w') = drop 1 (faults (store_of w)).
Proof.
  intros Hf Hrow Hcmp. unfold syncNote, GetNote, next_fault.
  rewrite Hf. simpl. rewrite Hrow. simpl. rewrite Hcmp. simpl.
  eexists. split; [reflexivity|]. done.
Qed.

(** The concurrent branch, when the merge returns and the save succeeds. *)
Lemma syncNote_concurrent w n clientID lastSync row merged e :
  fault_at (store_of w) 0 = None →
  rows (store_of w) !! Note.ID n = Some row →
  Compare (Note.Clock n) (clock_data row) = 0 →
  Merge (crdt_data row) (Note.CRDT n) = Ret (merged, e) →
  fault_at (store_of w) 1 = None →
  ∃ w' row',
    syncNote w n clientID lastSync = Ret (w', (Some (merged_conflict n row), None)) ∧
    rows (store_of w') !! Note.ID n = Some row' ∧
    crdt_data row' = merged ∧
    content row' = CRDT.Text merged ∧
    clock_data row' = Update (clock_data row) (Note.Clock n).
Proof.
  intros Hf Hrow Hcmp Hmerge Hsave. unfold syncNote, GetNote, next_fault.
  rewrite Hf. simpl. rewrite Hrow. simpl. rewrite Hcmp. simpl.
  rewrite Hmerge. simpl.
  apply ApplyOperations_Ret in Hmerge as [-> _].
  unfold SaveNote, next_fault. simpl. rewrite fault_at_next, Hsave. simpl.
  eexists _, _. split; [reflexivity|]. simpl.
  split; [exact (lookup_upsert_existing
                   (absorb (note_of_row (Note.ID n) row) n merged _) _ row Hrow)|].
  done.
Qed.

(** A conflict record comes from the concurrent branch only, after a
    successful save. *)
Lemma syncNote_conflict_inv w n clientID lastSync w' c err :
  syncNote w n clientID lastSync = Ret (w', (Some c, err)) →
  ∃ row, rows (store_of w) !! Note.ID n = Some row ∧
         Compare (Note.Clock n) (clock_data row) = 0 ∧
         fault_at (store_of w) 0 = None ∧
         fault_at (store_of w) 1 = None ∧
         err = None ∧
         c = merged_conflict n row ∧
         ∃ row', rows (store_of w') !! Note.ID n = Some row' ∧
                 clock_data row' = Conflict.ServerClock c.
Proof.
  unfold syncNote, GetNote, next_fault.
  destruct (fault_at (store_of w) 0) eqn:Hf; simpl; [discriminate|].
  destruct (rows (store_of w) !! Note.ID n) as [row|] eqn:Hrow; simpl.
  2:{ unfold SaveNote, next_fault. simpl. rewrite fault_at_next.
      destruct (fault_at (store_of w) 1); simpl; discriminate. }
  destruct (Z.eqb_spec (Compare (Note.Clock n) (clock_data row)) (-1)) as [?|_];
    [discriminate|].
  destruct (Z.eqb_spec (Compare (Note.Clock n) (clock_data row)) 1) as [?|_].
  { destruct (Merge _ _) as [[merged me]|m]; simpl; [| discriminate].
    unfold SaveNote, next_fault. simpl. rewrite fault_at_next.
    destruct (fault_at (store_of w) 1); simpl; discriminate. }
  destruct (Z.eqb_spec (Compare (Note.Clock n) (clock_data row)) 0) as [Hcmp|];
    [| discriminate].
  destruct (Merge _ _) as [[merged me]|m]; simpl; [| discriminate].
  destruct me; simpl; [discriminate|].
  unfold SaveNote, next_fault. simpl. rewrite fault_at_next.
  destruct (fault_at (store_of w) 1) eqn:Hsave; simpl; [discriminate|].
  intros [= <- <- <-]. exists row. repeat (split; [done|]).
  eexists. simpl.
  split; [exact (lookup_upsert_existing
                   (absorb (note_of_row (Note.ID n) row) n merged _) _ row Hrow)
         | reflexivity].
Qed.

(** C7 (conflict emission), as the code has it: when the clocks compare as
    concurrent or equal, the merge returns and the save of the merged note
    succeeds, [syncNote] returns one conflict record for the note, with
    resolution "merged", and the merged note is in the table; when the
    save fails instead, [syncNote] returns the failure of the save as its
    error, no conflict record, and the table is as it was; and a conflict
    record is returned on no other path: not on another branch, and not
    when the save fails. *)
Theorem syncNote_conflict_emission w n clientID lastSync :
  (∀ row merged e,
     fault_at (store_of w) 0 = None →
     rows (store_of w) !! Note.ID n = Some row →
     Compare (Note.Clock n) (clock_data row) = 0 →
     Merge (crdt_data row) (Note.CRDT n) = Ret (merged, e) →
     fault_at (store_of w) 1 = None →
     ∃ w' c row',
       syncNote w n clientID lastSync = Ret (w', (Some c, None)) ∧
       Conflict.NoteID c = Note.ID n ∧
       Conflict.Resolution c = "merged"%string ∧
       rows (store_of w') !! Note.ID n = Some row' ∧
       crdt_data row' = merged ∧
       content row' = CRDT.Text merged) ∧
  (∀ row merged e msg,
     fault_at (store_of w) 0 = None →
     rows (store_of w) !! Note.ID n = Some row →
     Compare (Note.Clock n) (clock_data row) = 0 →
     Merge (crdt_data row) (Note.CRDT n) = Ret (merged, e) →
     fault_at (store_of w) 1 = Some msg →
     ∃ w',
       syncNote w n clientID lastSync
         = Ret (w', (None, Some ("failed to save merged note: " +:+ msg))) ∧
       rows (store_of w') = rows (store_of w)) ∧
  (∀ w' c err,
     syncNote w n clientID lastSync = Ret (w', (Some c, err)) →
     ∃ row, rows (store_of w) !! Note.ID n = Some row ∧
            Compare (Note.Clock n) (clock_data row) = 0 ∧
            fault_at (store_of w) 1 = None ∧
            err = None ∧
            Conflict.Resolution c = "merged"%string).
Proof.
  split; [| split].
  - intros row merged e Hf Hrow Hcmp Hmerge Hsave.
    destruct (syncNote_concurrent w n clientID lastSync row merged e)
      as (w' & row' & Hs & Hrow' & Hc & Ht & _); try done.
    exists w', (merged_conflict n row), row'. done.
  - intros row merged e msg Hf Hrow Hcmp Hmerge Hsave.
    pose proof (ApplyOperations_Ret _ _ _ _ Hmerge) as [-> _].
    unfold syncNote, GetNote, next_fault. rewrite Hf. simpl.
    rewrite Hrow. simpl. rewrite Hcmp. simpl. rewrite Hmerge. simpl.
    unfold SaveNote, next_fault. simpl. rewrite fault_at_next, Hsave. simpl.
    eexists. split; reflexivity.
  - intros w' c err Hs.
    apply syncNote_conflict_inv in Hs
      as (row & Hrow & Hcmp & _ & Hsave & -> & -> & _).
    exists row. done.
Qed.

Lemma vc_get_nonneg vc k : nonneg_clock vc → 0 ≤ vc_get vc k.
Proof.
  intros Hvc. unfold vc_get. destruct (vc !! k) as [v|] eqn:Hk; simpl; [| done].
  by apply (Hvc k).
Qed.

(** C10 (the conflict record reports the clock after the merge), as the
    code has it: the [ServerClock] of an emitted conflict record is the
    clock of the stored note after [Update] with the client clock, which
    is also the clock that was saved.  When the stored clock had no
    negative counter, it is the maximum of the two clocks under every key,
    the client clock is at most the reported server clock under every key,
    and the two are not concurrent. *)
Theorem conflict_reports_merged_clock w n clientID lastSync w' c err :
  syncNote w n clientID lastSync = Ret (w', (Some c, err)) →
  ∃ row row',
    rows (store_of w) !! Note.ID n = Some row ∧
    rows (store_of w') !! Note.ID n = Some row' ∧
    Conflict.ClientClock c = Note.Clock n ∧
    Conflict.ServerClock c = Update (clock_data row) (Note.Clock n) ∧
    Conflict.ServerClock c = clock_data row' ∧
    (nonneg_clock (clock_data row) →
       (∀ k, vc_get (Conflict.ServerClock c) k =
             Z.max (vc_get (clock_data row) k) (vc_get (Note.Clock n) k)) ∧
       (∀ k, vc_get (Conflict.ClientClock c) k ≤ vc_get (Conflict.ServerClock c) k) ∧
       ¬ (some_smaller (Conflict.ClientClock c) (Conflict.ServerClock c) ∧
          some_smaller (Conflict.ServerClock c) (Conflict.ClientClock c)) ∧
       Compare (Conflict.ClientClock c) (Conflict.ServerClock c) ≠ 1).
Proof.
  intros Hs.
  apply syncNote_conflict_inv in Hs
    as (row & Hrow & _ & _ & _ & _ & -> & row' & Hrow' & Hclk).
  exists row, row'. simpl in *. repeat (split; [done|]).
  intros Hnn.
  assert (Hmax : ∀ k, vc_get (Update (clock_data row) (Note.Clock n)) k =
                      Z.max (vc_get (clock_data row) k) (vc_get (Note.Clock n) k)).
  { intros k. rewrite vc_get_Update.
    pose proof (vc_get_nonneg _ k Hnn).
    change (vc_get (Note.Clock n) k) with (default 0 (Note.Clock n !! k)).
    destruct (Note.Clock n !! k); simpl; [done | lia]. }
  assert (Hle : ∀ k, vc_get (Note.Clock n) k
                     ≤ vc_get (Update (clock_data row) (Note.Clock n)) k).
  { intros k. rewrite Hmax. lia. }
  assert (Hno : ¬ some_smaller (Update (clock_data row) (Note.Clock n)) (Note.Clock n)).
  { intros (k & _ & Hlt). specialize (Hle k). lia. }
  split; [done|]. split; [done|]. split; [tauto|].
  intros Habs. apply Compare_after in Habs. tauto.
Qed.

(** When [syncNote] returns no error, the calls it made to the store, one
    or two, have all succeeded. *)
Lemma syncNote_nil_error_inv w n clientID lastSync w' c :
  syncNote w n clientID lastSync = Ret (w', (c, None)) →
  fault_at (store_of w) 0 = None ∧
  (faults (store_of w') = drop 1 (faults (store_of w)) ∨
   (fault_at (store_of w) 1 = None ∧
    faults (store_of w') = drop 2 (faults (store_of w)))).
Proof.
  unfold syncNote, GetNote, next_fault.
  destruct (fault_at (store_of w) 0) eqn:Hf; simpl; [discriminate|].
  destruct (rows (store_of w) !! Note.ID n) as [row|] eqn:Hrow; simpl.
  2:{ unfold SaveNote, next_fault. simpl. rewrite fault_at_next.
      destruct (fault_at (store_of w) 1) eqn:Hsave; simpl; [discriminate|].
      intros [= <- <-]. simpl. rewrite drop_drop. auto. }
  destruct (Z.eqb_spec (Compare (Note.Clock n) (clock_data row)) (-1)) as [?|_].
  { intros [= <- <-]. simpl. auto. }
  destruct (Z.eqb_spec (Compare (Note.Clock n) (clock_data row)) 1) as [?|_].
  { destruct (Merge _ _) as [[merged me]|m]; simpl; [| discriminate].
    unfold SaveNote, next_fault. simpl. rewrite fault_at_next.
    destruct (fault_at (store_of w) 1) eqn:Hsave; simpl; [discriminate|].
    intros [= <- <-]. simpl. rewrite drop_drop. auto. }
  destruct (Z.eqb_spec (Compare (Note.Clock n) (clock_data row)) 0) as [?|_].
  2:{ intros [= <- <-]. simpl. auto. }
  destruct (Merge _ _) as [[merged me]|m]; simpl; [| discriminate].
  destruct me; simpl; [discriminate|].
  unfold SaveNote, next_fault. simpl. rewrite fault_at_next.
  destruct (fault_at (store_of w) 1) eqn:Hsave; simpl; [discriminate|].
  intros [= <- <-]. simpl. rewrite drop_drop. auto.
Qed.

(** What [Sync] returns once its first loop is through. *)
Lemma Sync_after_loop w req w1 conflicts :
  syncNotes w req (SyncRequest.Notes req) [] = Ret (w1, conflicts) →
  ∃ w2 resp err,
    Sync w req = Ret (w2, (resp, err)) ∧
    (err = None ↔ fault_at (store_of w1) 0 = None) ∧
    (is_Some resp ↔ err = None).
Proof.
  intros Hloop. unfold Sync. rewrite Hloop. simpl.
  unfold GetAllNotes, next_fault.
  destruct (fault_at (store_of w1) 0) eqn:Hf; simpl.
  - eexists _, _, _. split; [reflexivity|].
    split; split; intros Hx; try done; by destruct Hx.
  - eexists _, _, _. split; [reflexivity|].
    split; split; intros Hx; try done.
Qed.

(** C9 (storage failure), as the code has it: a call of the store that
    fails inside [syncNote] makes [syncNote] return an error (it returns
    none only when every call it made, the load and the save if it came to
    it, has succeeded); an error that [syncNote] returns is written to the
    log by [Sync], which goes on with the next note; and once the loop is
    through [Sync] returns an error exactly when its own call of
    [GetAllNotes] fails, and a response otherwise. *)
Theorem Sync_logs_and_skips_failed_notes w req :
  (∀ n msg, fault_at (store_of w) 0 = Some msg →
     ∃ w1 e, syncNote w n (SyncRequest.ClientID req)
                      (SyncRequest.LastSync req !! Note.ID n)
             = Ret (w1, (None, Some e))) ∧
  (∀ n w1 c,
     syncNote w n (SyncRequest.ClientID req) (SyncRequest.LastSync req !! Note.ID n)
       = Ret (w1, (c, None)) →
     fault_at (store_of w) 0 = None ∧
     (faults (store_of w1) = drop 1 (faults (store_of w)) ∨
      (fault_at (store_of w) 1 = None ∧
       faults (store_of w1) = drop 2 (faults (store_of w))))) ∧
  (∀ n rest conflicts w1 c e,
     syncNote w n (SyncRequest.ClientID req) (SyncRequest.LastSync req !! Note.ID n)
       = Ret (w1, (c, Some e)) →
     syncNotes w req (n :: rest) conflicts =
     syncNotes (log_Printf ("Error syncing note " +:+ Note.ID n +:+ ": " +:+ e) w1)
               req rest conflicts) ∧
  (∀ w1 conflicts,
     syncNotes w req (SyncRequest.Notes req) [] = Ret (w1, conflicts) →
     ∃ w2 resp err,
       Sync w req = Ret (w2, (resp, err)) ∧
       (err = None ↔ fault_at (store_of w1) 0 = None) ∧
       (is_Some resp ↔ err = None)).
Proof.
  split; [| split; [| split]].
  - intros n msg Hf. eexists _, _. by apply syncNote_load_fails.
  - intros n w1 c. apply syncNote_nil_error_inv.
  - intros n rest conflicts w1 c e Hs. simpl. rewrite Hs. reflexivity.
  - apply Sync_after_loop.
Qed.

End SyncFacts.

(** ** Concrete runs *)

(** The clocks of the unit test "concurrent" of the package [clock]. *)
Lemma Compare_by_cases_witness :
  Compare {[ "client1"%string := 5; "client2"%string := 2 ]}
          {[ "client1"%string := 3; "client2"%string := 7 ]} = 0.
Proof.
  apply (proj1 (Compare_by_cases _ _)). split.
  - exists "client2"%string. split; [set_solver | by vm_compute].
  - exists "client1"%string. split; [set_solver | by vm_compute].
Defined.

Lemma syncNote_client_behind_witness :
  ∃ w', @syncNote go_sort_small (world_with server_row []) client_behind "c" None
          = Ret (w', (None, None)) ∧
        rows (store_of w') = rows (store_of (world_with server_row [])) ∧
        faults (store_of w') = drop 1 (faults (store_of (world_with server_row []))).
Proof.
  apply (@syncNote_client_behind go_sort_small (world_with server_row [])
           client_behind "c" None server_row).
  - reflexivity.
  - vm_compute. reflexivity.
  - vm_compute. reflexivity.
Defined.

(** C7 does not hold as the specification states it: the clocks {c:1} and {a:1} are
    concurrent, the load succeeds and the save fails; [syncNote] returns
    the error, no conflict record, and the table is as it was. *)
Lemma concurrent_but_no_conflict_when_save_fails :
  let w := world_with server_row [None; Some "database is locked"%string] in
  Compare (Note.Clock client_concurrent) (clock_data server_row) = 0 ∧
  ∃ w', @syncNote go_sort_small w client_concurrent "c" None
          = Ret (w', (None, Some "failed to save merged note: database is locked"%string)) ∧
        rows (store_of w') = rows (store_of w).
Proof.
  cbv zeta. split; [vm_compute; reflexivity|].
  eexists. split; vm_compute; reflexivity.
Qed.

Lemma syncNote_conflict_emission_witness :
  ∃ w' c row',
    @syncNote go_sort_small (world_with server_row []) client_concurrent "c" None
      = Ret (w', (Some c, None)) ∧
    Conflict.NoteID c = "note-1"%string ∧
    Conflict.Resolution c = "merged"%string ∧
    rows (store_of w') !! "note-1"%string = Some row' ∧
    crdt_data row' = merged_log ∧
    content row' = runes "ac".
Proof.
  apply (proj1 (@syncNote_conflict_emission go_sort_small
                  (world_with server_row []) client_concurrent "c" None)
           server_row merged_log None).
  - reflexivity.
  - vm_compute. reflexivity.
  - vm_compute. reflexivity.
  - vm_compute. reflexivity.
  - reflexivity.
Defined.

(** C9 does not hold as the specification states it: the load of "note-1" fails inside
    [syncNote], which returns the failure; [Sync] writes it to the log and
    returns a response and no error.  The same holds when the load succeeds
    and the save fails. *)
Lemma Sync_succeeds_although_store_failed :
  let w := world_with server_row [Some "database is locked"%string] in
  let v := world_with server_row [None; Some "database is locked"%string] in
  (∃ w1, @syncNote go_sort_small w client_concurrent "c" None
           = Ret (w1, (None, Some "failed to get server note: database is locked"%string))) ∧
  (∃ w2 resp, @Sync go_sort_small w sync_request = Ret (w2, (Some resp, None)) ∧
              SyncResponse.Conflicts resp = [] ∧
              log w2 = ["Error syncing note note-1: failed to get server note: database is locked"%string]) ∧
  (∃ v2 resp, @Sync go_sort_small v sync_request = Ret (v2, (Some resp, None)) ∧
              SyncResponse.Conflicts resp = [] ∧
              rows (store_of v2) = rows (store_of v)).
Proof.
  cbv zeta. split; [| split].
  - eexists. vm_compute. reflexivity.
  - eexists _, _. split; [vm_compute; reflexivity|]. split; reflexivity.
  - eexists _, _. split; [vm_compute; reflexivity|]. split; reflexivity.
Qed.

Lemma Sync_logs_and_skips_failed_notes_witness :
  let w := world_with server_row [Some "database is locked"%string] in
  ∃ w1 e, @syncNote go_sort_small w client_concurrent "c" None = Ret (w1, (None, Some e)).
Proof.
  cbv zeta.
  apply (proj1 (@Sync_logs_and_skips_failed_notes go_sort_small
                  (world_with server_row [Some "database is locked"%string])
                  sync_request)
           client_concurrent "database is locked"%string).
  reflexivity.
Defined.

(** C10 does not hold as the specification states it: the stored clock is {a:-5} and the
    client clock {b:-1}.  They compare as concurrent, [Update] changes
    nothing, and the conflict record reports the clocks {b:-1} and {a:-5},
    which are concurrent; under "a" the reported server clock reads -5,
    not the maximum of -5 and 0. *)
Lemma conflict_clocks_concurrent_when_negative :
  ∃ w' c,
    @syncNote go_sort_small (world_with server_row_negative []) client_negative "b" None
      = Ret (w', (Some c, None)) ∧
    Conflict.ClientClock c = {[ "b"%string := -1 ]} ∧
    Conflict.ServerClock c = {[ "a"%string := -5 ]} ∧
    some_smaller (Conflict.ClientClock c) (Conflict.ServerClock c) ∧
    some_smaller (Conflict.ServerClock c) (Conflict.ClientClock c) ∧
    Compare (Conflict.ClientClock c) (Conflict.ServerClock c) = 0 ∧
    vc_get (Conflict.ServerClock c) "a" ≠
      Z.max (vc_get (clock_data server_row_negative) "a")
            (vc_get (Note.Clock client_negative) "a").
Proof.
  eexists _, _. split; [vm_compute; reflexivity|]. simpl.
  split; [vm_compute; reflexivity|]. split; [vm_compute; reflexivity|].
  split; [| split; [| split]].
  - exists "b"%string. split; [set_solver | by vm_compute].
  - exists "a"%string. split; [set_solver | by vm_compute].
  - vm_compute. reflexivity.
  - vm_compute. discriminate.
Qed.

Lemma conflict_reports_merged_clock_witness :
  let c := merged_conflict client_concurrent server_row in
  @syncNote go_sort_small (world_with server_row []) client_concurrent "c" None
    = Ret (world_after_merge, (Some c, None)) ∧
  ∃ row row',
    rows (store_of (world_with server_row [])) !! "note-1"%string = Some row ∧
    rows (store_of world_after_merge) !! "note-1"%string = Some row' ∧
    Conflict.ClientClock c = Note.Clock client_concurrent ∧
    Conflict.ServerClock c = Update (clock_data row) (Note.Clock client_concurrent) ∧
    Conflict.ServerClock c = clock_data row' ∧
    (nonneg_clock (clock_data row) →
       (∀ k, vc_get (Conflict.ServerClock c) k =
             Z.max (vc_get (clock_data row) k) (vc_get (Note.Clock client_concurrent) k)) ∧
       (∀ k, vc_get (Conflict.ClientClock c) k ≤ vc_get (Conflict.ServerClock c) k) ∧
       ¬ (some_smaller (Conflict.ClientClock c) (Conflict.ServerClock c) ∧
          some_smaller (Conflict.ServerClock c) (Conflict.ClientClock c)) ∧
       Compare (Conflict.ClientClock c) (Conflict.ServerClock c) ≠ 1).
Proof.
  cbv zeta.
  assert (Hrun : @syncNote go_sort_small (world_with server_row [])
                   client_concurrent "c" None
                 = Ret (world_after_merge,
                        (Some (merged_conflict client_concurrent server_row), None)))
    by (vm_compute; reflexivity).
  split; [exact Hrun|].
  exact (@conflict_reports_merged_clock go_sort_small _ _ _ _ _ _ _ Hrun).
Defined.

(** ** What the code guarantees where the properties above fall short *)

(** [GetOperationsSince] returns, in the order of the log, exactly the
    operations whose clock compares as strictly after [since]. *)
Theorem GetOperationsSince_is_strictly_after (c : CRDT) (since : VectorClock) :
  GetOperationsSince c since =
  List.filter (fun op => Compare (Operation.Clock op) since =? 1)
              (CRDT.Operations c).
Proof.
  unfold GetOperationsSince, HappensBefore. apply List.filter_ext. intros op.
  destruct (Compare_range (Operation.Clock op) since) as [-> | [-> | ->] ];
    reflexivity.
Qed.

Lemma replay_app text ops1 ops2 :
  replay text (ops1 ++ ops2) = replay text ops1 ≫= (fun t => replay t ops2).
Proof.
  revert text. induction ops1 as [|op ops1 IH]; intros text; simpl; [done|].
  destruct (replay_step text op) as [t|m]; simpl; [apply IH | done].
Qed.

(** Boundary skip above the range: an insert whose position exceeds the
    length of the text at its turn, or a delete whose position is at or
    beyond it, is skipped: the replay returns what it returns without the
    operation. *)
Theorem operation_beyond_range_is_skipped text before after t op :
  replay text before = Ret t →
  beyond_range t op →
  replay text (before ++ op :: after) = replay text (before ++ after).
Proof.
  intros Hbefore Hop. rewrite !replay_app, Hbefore. simpl.
  destruct Hop as [[Ht Hpos]|[Ht Hpos]].
  - by rewrite replay_step_insert_beyond.
  - by rewrite replay_step_delete_beyond.
Qed.

Lemma operation_beyond_range_is_skipped_witness :
  replay [] ([insert_op "a-1" "a" {[ "a"%string := 1 ]} 0 "ab" 1]
             ++ insert_op "a-2" "a" {[ "a"%string := 2 ]} 3 "x" 2
             :: [delete_op "a-3" "a" {[ "a"%string := 3 ]} 0 3])
  = replay [] ([insert_op "a-1" "a" {[ "a"%string := 1 ]} 0 "ab" 1]
               ++ [delete_op "a-3" "a" {[ "a"%string := 3 ]} 0 3]).
Proof.
  apply (operation_beyond_range_is_skipped [] _ _ (runes "ab")).
  - reflexivity.
  - left. split; [reflexivity | by vm_compute].
Defined.

(** Whatever its position, an operation that [ApplyOperation] has applied
    is at the end of the log and its clock has been absorbed. *)
Theorem applied_operation_is_logged `{SliceSort} (c c' : CRDT) (op : Operation) err :
  ApplyOperation c op = Ret (c', err) →
  err = None ∧
  CRDT.Operations c' = CRDT.Operations c ++ [op] ∧
  CRDT.Clock c' = Update (CRDT.Clock c) (Operation.Clock op).
Proof. apply ApplyOperation_Ret. Qed.

Lemma applied_operation_is_logged_witness :
  let op := insert_op "a-2" "a" {[ "a"%string := 2 ]} 7 "x" 2 in
  let c' := {| CRDT.Operations := [opA; op]; CRDT.Text := runes "a";
               CRDT.Clock := {[ "a"%string := 2 ]} |} in
  @ApplyOperation go_sort_small one_op_log op = Ret (c', None) ∧
  (None : error) = None ∧
  CRDT.Operations c' = CRDT.Operations one_op_log ++ [op] ∧
  CRDT.Clock c' = Update (CRDT.Clock one_op_log) (Operation.Clock op).
Proof.
  cbv zeta.
  assert (Hrun : @ApplyOperation go_sort_small one_op_log
                   (insert_op "a-2" "a" {[ "a"%string := 2 ]} 7 "x" 2)
                 = Ret ({| CRDT.Operations :=
                             [opA; insert_op "a-2" "a" {[ "a"%string := 2 ]} 7 "x" 2];
                           CRDT.Text := runes "a";
                           CRDT.Clock := {[ "a"%string := 2 ]} |}, None))
    by (vm_compute; reflexivity).
  split; [exact Hrun|].
  exact (@applied_operation_is_logged go_sort_small _ _ _ _ Hrun).
Defined.

(** ** Convergence when the comparison is a strict total order *)

Section InsertionSort.
Context {A : Type} (less : A → A → bool).

Lemma strict_total_order_on_incl l1 l2 :
  (∀ x, x ∈ l2 → x ∈ l1) →
  strict_total_order_on less l1 → strict_total_order_on less l2.
Proof.
  intros Hin (Hirr & Htr & Htot).
  split; [| split]; intros *; eauto 10.
Qed.

Lemma order_asym l x y :
  strict_total_order_on less l → x ∈ l → y ∈ l →
  less x y = true → less y x = false.
Proof.
  intros (Hirr & Htr & _) Hx Hy Hxy.
  destruct (less y x) eqn:Hyx; [| done].
  rewrite <- (Hirr x Hx). symmetry. by apply (Htr x y x).
Qed.

Lemma order_neg_trans l x y z :
  strict_total_order_on less l → x ∈ l → y ∈ l → z ∈ l →
  less x y = false → less y z = false → less x z = false.
Proof.
  intros (Hirr & Htr & Htot) Hx Hy Hz Hxy Hyz.
  destruct (less x z) eqn:Hxz; [| done].
  destruct (less y x) eqn:Hyx.
  - rewrite <- Hyz. symmetry. by apply (Htr y x z).
  - assert (x = y) as -> by (by apply Htot). congruence.
Qed.

Lemma sift_sorted x front :
  strict_total_order_on less (x :: front) →
  StronglySorted (not_less less) front →
  StronglySorted (not_less less) (sift less x front).
Proof.
  intros Hord Hs. induction Hs as [|y ys Hys IH Hy]; simpl.
  - repeat constructor.
  - rewrite Forall_forall in Hy.
    destruct (less x y) eqn:Hxy.
    + constructor.
      * apply IH. revert Hord. apply strict_total_order_on_incl.
        intros w Hw. apply elem_of_cons in Hw as [->|Hw]; [by left|].
        right. by right.
      * apply Forall_forall. intros w Hw.
        rewrite sift_perm in Hw. apply elem_of_cons in Hw as [->|Hw].
        -- apply (order_asym (x :: y :: ys)); try done; [by left | right; by left].
        -- by apply Hy.
    + constructor; [by constructor; [| apply Forall_forall] |].
      apply Forall_forall. intros w Hw.
      apply elem_of_cons in Hw as [->|Hw]; [done|].
      apply (order_neg_trans (x :: y :: ys) x y w); try done.
      * by left.
      * right; by left.
      * right; by right.
      * by apply Hy.
Qed.

Lemma fold_sift_sorted l front :
  strict_total_order_on less (front ++ l) →
  StronglySorted (not_less less) front →
  StronglySorted (not_less less)
    (fold_left (fun front y => sift less y front) l front).
Proof.
  revert front. induction l as [|y l IH]; intros front Hord Hs; simpl; [done|].
  apply IH.
  - revert Hord. apply strict_total_order_on_incl. intros w Hw.
    apply elem_of_app in Hw as [Hw|Hw].
    + rewrite sift_perm in Hw. apply elem_of_app.
      apply elem_of_cons in Hw as [->|Hw]; [right; by left | by left].
    + apply elem_of_app. right. by right.
  - apply sift_sorted; [| done].
    revert Hord. apply strict_total_order_on_incl. intros w Hw.
    apply elem_of_app. apply elem_of_cons in Hw as [->|Hw]; [right; by left | by left].
Qed.

Lemma StronglySorted_rev (R : A → A → Prop) l :
  StronglySorted R l → StronglySorted (flip R) (rev l).
Proof.
  induction 1 as [|x l Hl IH Hx]; simpl; [constructor|].
  apply StronglySorted_app_2; [| done | repeat constructor].
  intros a b Ha Hb. apply list_elem_of_singleton in Hb as ->.
  rewrite Forall_forall in Hx. apply Hx.
  apply list_elem_of_In, in_rev. by apply list_elem_of_In.
Qed.

(** On a slice that [less] orders strictly and totally the insertion sort
    of the Go library gives the ascending order. *)
Lemma insertionSort_func_sorted l :
  strict_total_order_on less l →
  StronglySorted (flip (not_less less)) (insertionSort_func less l).
Proof.
  intros Hord. unfold insertionSort_func. apply StronglySorted_rev.
  apply fold_sift_sorted; [done | constructor].
Qed.

(** Two arrangements of the same elements are then sorted into the same
    slice. *)
Lemma insertionSort_func_perm_eq l1 l2 :
  l1 ≡ₚ l2 → strict_total_order_on less l1 →
  insertionSort_func less l1 = insertionSort_func less l2.
Proof.
  intros Hp Hord.
  assert (Hord2 : strict_total_order_on less l2).
  { revert Hord. apply strict_total_order_on_incl. intros w. by rewrite Hp. }
  apply (StronglySorted_unique_strong (flip (not_less less))).
  - intros x1 x2 Hx1 Hx2 H12 H21.
    rewrite insertionSort_func_perm in Hx1, Hx2. rewrite <- Hp in Hx2.
    destruct Hord as (_ & _ & Htot). by apply Htot.
  - by apply insertionSort_func_sorted.
  - by apply insertionSort_func_sorted.
  - by rewrite !insertionSort_func_perm.
Qed.

End InsertionSort.

(** Convergence, where it holds: two replicas whose logs hold the same
    operations, on which the comparison of [rebuildText] is a strict total
    order, rebuild the same text (with the sort that the Go library runs
    on at most twelve elements), or both panic. *)
Theorem rebuildText_converges_on_total_order (c1 c2 : CRDT) :
  CRDT.Operations c1 ≡ₚ CRDT.Operations c2 →
  strict_total_order_on less (CRDT.Operations c1) →
  match @rebuildText go_sort_small c1, @rebuildText go_sort_small c2 with
  | Ret c1', Ret c2' => CRDT.Text c1' = CRDT.Text c2'
  | Panic m1, Panic m2 => m1 = m2
  | _, _ => False
  end.
Proof.
  intros Hp Hord. unfold rebuildText. simpl.
  rewrite (insertionSort_func_perm_eq less _ _ Hp Hord).
  destruct (replay [] _); simpl; done.
Qed.

Lemma test_ops_totally_ordered :
  strict_total_order_on less [test_op1; test_op2].
Proof.
  assert (Hcases : ∀ x, x ∈ [test_op1; test_op2] → x = test_op1 ∨ x = test_op2).
  { intros x Hx. apply elem_of_cons in Hx as [->|Hx]; [by left|].
    apply list_elem_of_singleton in Hx as ->. by right. }
  split; [| split].
  - intros x Hx. destruct (Hcases x Hx) as [-> | ->]; by vm_compute.
  - intros x y z Hx Hy Hz.
    destruct (Hcases x Hx) as [-> | ->], (Hcases y Hy) as [-> | ->],
      (Hcases z Hz) as [-> | ->]; by vm_compute.
  - intros x y Hx Hy Hxy Hyx.
    destruct (Hcases x Hx) as [-> | ->], (Hcases y Hy) as [-> | ->];
      vm_compute in Hxy, Hyx;
      first [discriminate Hxy | discriminate Hyx | reflexivity].
Qed.

Lemma rebuildText_converges_on_total_order_witness :
  let c1 := {| CRDT.Operations := [test_op1; test_op2]; CRDT.Text := [];
               CRDT.Clock := ∅ |} in
  let c2 := {| CRDT.Operations := [test_op2; test_op1]; CRDT.Text := [];
               CRDT.Clock := ∅ |} in
  match @rebuildText go_sort_small c1, @rebuildText go_sort_small c2 with
  | Ret c1', Ret c2' => CRDT.Text c1' = CRDT.Text c2'
  | Panic m1, Panic m2 => m1 = m2
  | _, _ => False
  end.
Proof.
  cbv zeta. apply rebuildText_converges_on_total_order.
  - apply perm_swap.
  - exact test_ops_totally_ordered.
Defined.

(** * Further properties of the code *)

(** ** Vector clocks: order, merge and increment *)

Section MoreClockFacts.
Implicit Types vc other a b c : VectorClock.

(** Whether some key reads smaller can be asked of all keys: outside the
    two key sets both clocks read zero. *)
Lemma some_smaller_reads a b :
  some_smaller a b ↔ ∃ k, vc_get a k < vc_get b k.
Proof.
  split; [intros (k & _ & Hk); eauto|].
  intros (k & Hk). exists k. split; [| done].
  destruct (decide (k ∈ dom a ∪ dom b)) as [|Hout]; [done|].
  destruct (vc_get_outside a b k Hout) as [Ha Hb]. lia.
Qed.

Lemma not_some_smaller_reads a b :
  ¬ some_smaller b a ↔ reads_le a b.
Proof.
  rewrite some_smaller_reads. unfold reads_le. split.
  - intros Hno k. destruct (Z.le_gt_cases (vc_get a k) (vc_get b k)); [done|].
    exfalso. apply Hno. exists k. lia.
  - intros Hle (k & Hk). specialize (Hle k). lia.
Qed.

(** [Compare] is decided by the two facts of [Compare_by_cases]. *)
Lemma Compare_determined a b a' b' :
  (some_smaller a b ↔ some_smaller a' b') →
  (some_smaller b a ↔ some_smaller b' a') →
  Compare a b = Compare a' b'.
Proof.
  intros H1 H2.
  destruct (Compare_flags_spec a b) as [F1 F2].
  destruct (Compare_flags_spec a' b') as [G1 G2].
  rewrite <- F1, <- G1 in H1. rewrite <- F2, <- G2 in H2.
  unfold Compare.
  destruct (Compare_flags a b) as [[] []], (Compare_flags a' b') as [[] []];
    simpl in *; try reflexivity; exfalso; intuition congruence.
Qed.

Lemma Compare_flags_swap a b :
  Compare_flags b a = (snd (Compare_flags a b), fst (Compare_flags a b)).
Proof.
  destruct (Compare_flags_spec a b) as [F1 F2].
  destruct (Compare_flags_spec b a) as [G1 G2].
  rewrite <- G2 in F1. rewrite <- G1 in F2.
  destruct (Compare_flags a b) as [[] []], (Compare_flags b a) as [[] []];
    simpl in *; try reflexivity; exfalso; intuition congruence.
Qed.

(** Exchanging the operands of [Compare] negates the answer. *)
Theorem Compare_swap a b : Compare b a = - Compare a b.
Proof.
  unfold Compare. rewrite (Compare_flags_swap a b).
  destruct (Compare_flags a b) as [[] []]; reflexivity.
Qed.

(** [Compare] looks at what the clocks read, not at which keys they hold:
    an entry that is zero is the same as no entry. *)
Theorem Compare_reads_only a a' b b' :
  (∀ k, vc_get a k = vc_get a' k) →
  (∀ k, vc_get b k = vc_get b' k) →
  Compare a b = Compare a' b'.
Proof.
  intros Ha Hb. apply Compare_determined; rewrite !some_smaller_reads;
    split; intros (k & Hk); exists k; specialize (Ha k); specialize (Hb k);
    lia.
Qed.

Lemma Compare_reads_only_witness :
  Compare {[ "a"%string := 0; "b"%string := 2 ]} {[ "b"%string := 1 ]}
  = Compare {[ "b"%string := 2 ]} {[ "b"%string := 1; "c"%string := 0 ]}.
Proof.
  apply Compare_reads_only; intros k; unfold vc_get.
  - destruct (decide (k = "a"%string)) as [->|Ha]; [by vm_compute|].
    by rewrite lookup_insert_ne.
  - destruct (decide (k = "c"%string)) as [->|Hc]; [by vm_compute|].
    destruct (decide (k = "b"%string)) as [->|Hb]; [by vm_compute|].
    rewrite lookup_insert_ne, !lookup_singleton_ne by done. reflexivity.
Defined.

Lemma HappensBefore_reads a b :
  HappensBefore a b = true ↔ reads_le a b ∧ ∃ k, vc_get a k < vc_get b k.
Proof.
  unfold HappensBefore. rewrite Z.eqb_eq, Compare_before.
  rewrite not_some_smaller_reads, some_smaller_reads. tauto.
Qed.

(** [HappensBefore] is a strict partial order: it is transitive, and two
    clocks are never before each other. *)
Theorem HappensBefore_strict_order a b c :
  HappensBefore a b = true → HappensBefore b c = true →
  HappensBefore a c = true ∧ HappensBefore c a = false ∧
  HappensBefore b a = false.
Proof.
  intros Hab Hbc.
  apply HappensBefore_reads in Hab as [Hab (k & Hk)].
  apply HappensBefore_reads in Hbc as [Hbc (j & Hj)].
  split; [| split].
  - apply HappensBefore_reads. split.
    + intros i. specialize (Hab i). specialize (Hbc i). lia.
    + exists k. specialize (Hbc k). lia.
  - apply not_true_iff_false. intros Hca.
    apply HappensBefore_reads in Hca as [Hca _].
    specialize (Hca k). specialize (Hbc k). lia.
  - apply not_true_iff_false. intros Hba.
    apply HappensBefore_reads in Hba as [Hba _].
    specialize (Hba k). lia.
Qed.

Lemma HappensBefore_strict_order_witness :
  let a : VectorClock := {[ "client1"%string := 1 ]} in
  let b : VectorClock := {[ "client1"%string := 2 ]} in
  let c : VectorClock := {[ "client1"%string := 2; "client2"%string := 1 ]} in
  HappensBefore a c = true ∧ HappensBefore c a = false ∧
  HappensBefore b a = false.
Proof.
  cbv zeta.
  apply (HappensBefore_strict_order _ {[ "client1"%string := 2 ]});
    vm_compute; reflexivity.
Defined.

Lemma Update_never_lowers_aux vc other k :
  vc_get vc k ≤ vc_get (Update vc other) k ∧
  (∀ v, other !! k = Some v → v ≤ vc_get (Update vc other) k).
Proof.
  rewrite vc_get_Update.
  destruct (other !! k) as [t|]; (split; [lia|]); try done.
  intros v [= ->]. lia.
Qed.

(** [Update] never lowers what the receiver reads, leaves it reading at
    least every entry of the other clock, and does not touch the keys that
    the other clock lacks. *)
Theorem Update_never_lowers vc other k :
  vc_get vc k ≤ vc_get (Update vc other) k ∧
  (∀ v, other !! k = Some v → v ≤ vc_get (Update vc other) k) ∧
  (other !! k = None → Update vc other !! k = vc !! k).
Proof.
  destruct (Update_never_lowers_aux vc other k) as [H1 H2].
  split; [done|]. split; [done|].
  intros Hk. by rewrite lookup_Update, Hk.
Qed.

Lemma Update_self vc : Update vc vc = vc.
Proof.
  apply map_eq. intros k.
  rewrite lookup_Update. destruct (vc !! k) as [t|] eqn:Hk; [| done].
  unfold vc_get. rewrite Hk. simpl. by rewrite Z.ltb_irrefl.
Qed.

Lemma Update_twice vc other :
  Update (Update vc other) other = Update vc other.
Proof.
  apply map_eq; intros k.
  rewrite (lookup_Update (Update vc other)), vc_get_Update.
  destruct (other !! k) as [t|]; [| done].
  destruct (Z.ltb_spec (Z.max (vc_get vc k) t) t); [lia | done].
Qed.

Lemma Update_comm vc a b :
  Update (Update vc a) b = Update (Update vc b) a.
Proof.
  apply map_eq. intros k.
  rewrite (lookup_Update (Update vc a)), (lookup_Update (Update vc b)).
  rewrite !vc_get_Update, !lookup_Update.
  destruct (a !! k) as [ta|], (b !! k) as [tb|]; try reflexivity.
  destruct (Z.ltb_spec (Z.max (vc_get vc k) ta) tb),
    (Z.ltb_spec (Z.max (vc_get vc k) tb) ta),
    (Z.ltb_spec (vc_get vc k) ta), (Z.ltb_spec (vc_get vc k) tb);
    try reflexivity; try lia; f_equal; lia.
Qed.

Lemma fold_Update_perm (l1 l2 : list VectorClock) :
  l1 ≡ₚ l2 → ∀ vc, fold_left Update l1 vc = fold_left Update l2 vc.
Proof.
  induction 1 as [|x l1 l2 _ IH|x y l|l1 l2 l3 _ IH1 _ IH2]; intros vc; simpl.
  - done.
  - apply IH.
  - by rewrite Update_comm.
  - by rewrite IH1.
Qed.

(** [Update] is idempotent and commutative: absorbing the same clock twice
    is absorbing it once, a clock absorbs itself without change, and
    clocks are absorbed into the same map in whatever order they come. *)
Theorem Update_idempotent_and_commutative vc a b (l1 l2 : list VectorClock) :
  Update (Update vc a) a = Update vc a ∧
  Update vc vc = vc ∧
  Update (Update vc a) b = Update (Update vc b) a ∧
  (l1 ≡ₚ l2 → fold_left Update l1 vc = fold_left Update l2 vc).
Proof.
  split; [apply Update_twice|]. split; [apply Update_self|].
  split; [apply Update_comm|]. intros Hp. by apply fold_Update_perm.
Qed.

Lemma wrap64_in_range z : is_int64 z → wrap64 z = z.
Proof.
  unfold is_int64, wrap64. intros Hz.
  rewrite Z.mod_small; [lia|].
  change (2 ^ 64) with (2 * 2 ^ 63). lia.
Qed.

Lemma vc_get_Increment vc clientID k :
  vc_get (Increment vc clientID) k =
    if decide (k = clientID) then wrap64 (vc_get vc clientID + 1)
    else vc_get vc k.
Proof.
  unfold Increment, vc_get at 1.
  destruct (decide (k = clientID)) as [->|Hne].
  - by rewrite lookup_insert_eq.
  - by rewrite lookup_insert_ne.
Qed.

Lemma reads_le_Increment vc clientID :
  is_int64 (vc_get vc clientID) → vc_get vc clientID ≠ 2 ^ 63 - 1 →
  reads_le vc (Increment vc clientID) ∧
  vc_get vc clientID < vc_get (Increment vc clientID) clientID.
Proof.
  intros Hrange Hmax.
  assert (Hw : wrap64 (vc_get vc clientID + 1) = vc_get vc clientID + 1).
  { apply wrap64_in_range. unfold is_int64 in *. lia. }
  split.
  - intros k. rewrite vc_get_Increment. case_decide; [subst; lia | lia].
  - rewrite vc_get_Increment, decide_True by done. lia.
Qed.

(** [Increment] below the largest [int64]: the counter of the client goes
    up by one, the other entries stay, and the clock from before happens
    before the clock from after. *)
Theorem Increment_advances vc clientID :
  is_int64 (vc_get vc clientID) →
  vc_get vc clientID ≠ 2 ^ 63 - 1 →
  vc_get (Increment vc clientID) clientID = vc_get vc clientID + 1 ∧
  (∀ k, k ≠ clientID → Increment vc clientID !! k = vc !! k) ∧
  HappensBefore vc (Increment vc clientID) = true.
Proof.
  intros Hrange Hmax.
  split; [| split].
  - rewrite vc_get_Increment, decide_True by done.
    apply wrap64_in_range. unfold is_int64 in *. lia.
  - intros k Hk. unfold Increment. by rewrite lookup_insert_ne.
  - apply HappensBefore_reads.
    destruct (reads_le_Increment vc clientID Hrange Hmax) as [Hle Hlt].
    split; [done | by exists clientID].
Qed.

Lemma Increment_advances_witness :
  let vc : VectorClock := {[ "client1"%string := 1 ]} in
  vc_get (Increment vc "client2") "client2" = vc_get vc "client2" + 1 ∧
  (∀ k, k ≠ "client2"%string → Increment vc "client2" !! k = vc !! k) ∧
  HappensBefore vc (Increment vc "client2") = true.
Proof.
  cbv zeta. apply Increment_advances.
  - vm_compute. split; [discriminate | reflexivity].
  - vm_compute. discriminate.
Defined.

(** [Increment] at the largest [int64]: the counter wraps around to the
    smallest, and the clock from after happens before the clock from
    before. *)
Theorem Increment_wraps_at_max vc clientID :
  vc_get vc clientID = 2 ^ 63 - 1 →
  vc_get (Increment vc clientID) clientID = - 2 ^ 63 ∧
  HappensBefore (Increment vc clientID) vc = true ∧
  Compare vc (Increment vc clientID) = 1.
Proof.
  intros Hmax.
  assert (Hw : wrap64 (vc_get vc clientID + 1) = - 2 ^ 63)
    by (rewrite Hmax; reflexivity).
  assert (Hb : HappensBefore (Increment vc clientID) vc = true).
  { apply HappensBefore_reads. split.
    - intros k. rewrite vc_get_Increment. case_decide; [subst; lia | lia].
    - exists clientID. rewrite vc_get_Increment, decide_True by done. lia. }
  split; [| split; [done|]].
  - rewrite vc_get_Increment. by rewrite decide_True.
  - apply HappensBefore_reads in Hb as [Hle Hlt].
    apply Compare_after. split.
    + by apply not_some_smaller_reads.
    + by apply some_smaller_reads.
Qed.

Lemma Increment_wraps_at_max_witness :
  let vc : VectorClock := {[ "client1"%string := 9223372036854775807 ]} in
  vc_get (Increment vc "client1") "client1" = - 2 ^ 63 ∧
  HappensBefore (Increment vc "client1") vc = true ∧
  Compare vc (Increment vc "client1") = 1.
Proof.
  cbv zeta. apply Increment_wraps_at_max. vm_compute. reflexivity.
Defined.

End MoreClockFacts.

(** ** The replicated text: replay, invariants and merge *)

Section MoreCrdtFacts.
Context `{SliceSort}.
Implicit Types c other : CRDT.
Implicit Types op : Operation.
Implicit Types text : list rune.

Lemma replay_step_insert_within text op :
  Operation.Type_ op = "insert"%string →
  0 ≤ Operation.Position op ≤ len text →
  replay_step text op =
    Ret (take (Z.to_nat (Operation.Position op)) text
         ++ Operation.Content op
         ++ drop (Z.to_nat (Operation.Position op)) text).
Proof.
  intros Ht Hpos. unfold replay_step, slice_to, slice_from. rewrite Ht. simpl.
  rewrite !(proj2 (Z.leb_le _ _)) by lia. reflexivity.
Qed.

Lemma replay_step_delete_within text op :
  Operation.Type_ op = "delete"%string →
  0 ≤ Operation.Position op < len text →
  replay_step text op =
    Ret (take (Z.to_nat (Operation.Position op)) text
         ++ drop (Z.to_nat (Operation.Position op + 1)) text).
Proof.
  intros Ht Hpos. unfold replay_step, slice_to, slice_from. rewrite Ht. simpl.
  rewrite (proj2 (Z.ltb_lt _ _)) by lia.
  rewrite !(proj2 (Z.leb_le _ _)) by lia. reflexivity.
Qed.

(** A delete right after the insert of one code point at the same position
    gives back the text from before. *)
Theorem insert_then_delete_restores text ins del r :
  Operation.Type_ ins = "insert"%string →
  Operation.Content ins = [r] →
  Operation.Type_ del = "delete"%string →
  Operation.Position del = Operation.Position ins →
  0 ≤ Operation.Position ins ≤ len text →
  replay text [ins; del] = Ret text.
Proof.
  intros Hi Hc Hd Hp Hpos. simpl.
  rewrite replay_step_insert_within by done. simpl. rewrite Hc.
  set (p := Z.to_nat (Operation.Position ins)).
  assert (Hlen : length (take p text) = p).
  { rewrite length_take. unfold len in Hpos. lia. }
  rewrite replay_step_delete_within; [| done |].
  2:{ rewrite Hp. unfold len in *. rewrite !length_app, Hlen. simpl. lia. }
  simpl. rewrite Hp. fold p. f_equal.
  replace (Z.to_nat (Operation.Position ins + 1)) with (S p) by lia.
  rewrite (take_app_le _ _ p) by lia. rewrite take_take, Nat.min_id.
  rewrite (drop_app_ge _ _ (S p)) by lia. rewrite Hlen.
  replace (S p - p)%nat with 1%nat by lia. simpl. rewrite drop_0.
  apply take_drop.
Qed.

Lemma insert_then_delete_restores_witness :
  replay (runes "Hello")
    [insert_op "a-1" "a" {[ "a"%string := 1 ]} 5 "!" 1;
     delete_op "a-2" "a" {[ "a"%string := 2 ]} 5 2]
  = Ret (runes "Hello").
Proof.
  apply (insert_then_delete_restores _ _ _ 33); try reflexivity.
  vm_compute. split; discriminate.
Defined.

Lemma sort_Slice_nil {A : Type} (f : A → A → bool) : sort_Slice f [] = [].
Proof. apply Permutation_nil_r, sort_Slice_perm. Qed.

Lemma NewCRDT_in_step : text_in_step NewCRDT.
Proof. unfold text_in_step, rebuildText. simpl. by rewrite sort_Slice_nil. Qed.

Lemma rebuildText_in_step c c' : rebuildText c = Ret c' → text_in_step c'.
Proof.
  unfold text_in_step, rebuildText.
  destruct (replay [] (sort_Slice less (CRDT.Operations c))) as [t|m] eqn:Hr;
    simpl; [| discriminate].
  intros [= <-]. simpl. rewrite Hr. reflexivity.
Qed.

Lemma ApplyOperation_in_step c op c' err :
  ApplyOperation c op = Ret (c', err) → text_in_step c'.
Proof.
  unfold ApplyOperation.
  destruct (rebuildText _) as [c3|m] eqn:Hr; simpl; [| discriminate].
  intros [= <- <-]. by eapply rebuildText_in_step.
Qed.

Lemma ApplyOperations_in_step c ops c' err :
  text_in_step c → ApplyOperations c ops = Ret (c', err) → text_in_step c'.
Proof.
  revert c. induction ops as [|op ops IH]; intros c Hc; simpl.
  - by intros [= <- <-].
  - destruct (ApplyOperation c op) as [[c1 e1]|m] eqn:Ha; simpl; [| discriminate].
    pose proof (ApplyOperation_in_step _ _ _ _ Ha) as Hc1.
    apply ApplyOperation_Ret in Ha as (-> & _). by apply IH.
Qed.

(** The text is a cache of the log.  [ApplyOperation] leaves the text that
    [rebuildText] makes of the log, whatever the text was before; [Merge]
    keeps the text in step with the log when it was. *)
Theorem text_stays_in_step c other op :
  (∀ c' err, ApplyOperation c op = Ret (c', err) → text_in_step c') ∧
  (text_in_step c → ∀ c' err, Merge c other = Ret (c', err) → text_in_step c').
Proof.
  split.
  - intros c' err. apply ApplyOperation_in_step.
  - intros Hc c' err. unfold Merge. by apply ApplyOperations_in_step.
Qed.

Lemma ApplyOperation_bounds c op c' err :
  clock_bounds_log c → ApplyOperation c op = Ret (c', err) →
  clock_bounds_log c'.
Proof.
  intros Hc Ha. apply ApplyOperation_Ret in Ha as (_ & Hops & Hclk).
  intros o Ho k v Hk. rewrite Hclk. rewrite Hops in Ho.
  destruct (Update_never_lowers_aux (CRDT.Clock c) (Operation.Clock op) k)
    as (Hlow & Hother).
  apply elem_of_app in Ho as [Ho|Ho].
  - specialize (Hc o Ho k v Hk). lia.
  - apply list_elem_of_singleton in Ho as ->. by apply Hother.
Qed.

Lemma ApplyOperations_bounds c ops c' err :
  clock_bounds_log c → ApplyOperations c ops = Ret (c', err) →
  clock_bounds_log c'.
Proof.
  revert c. induction ops as [|op ops IH]; intros c Hc; simpl.
  - by intros [= <- <-].
  - destruct (ApplyOperation c op) as [[c1 e1]|m] eqn:Ha; simpl; [| discriminate].
    pose proof (ApplyOperation_bounds _ _ _ _ Hc Ha) as Hc1.
    apply ApplyOperation_Ret in Ha as (-> & _). by apply IH.
Qed.

(** The clock of the replica bounds the clocks of its log: when every
    entry of the clock of a logged operation is at most what the replica's
    clock reads there, this still holds after [ApplyOperations] and after
    [Merge].  It holds of [NewCRDT]. *)
Theorem clock_keeps_bounding_log c :
  clock_bounds_log NewCRDT ∧
  (clock_bounds_log c →
   (∀ ops c' err, ApplyOperations c ops = Ret (c', err) → clock_bounds_log c') ∧
   (∀ other c' err, Merge c other = Ret (c', err) → clock_bounds_log c')).
Proof.
  split.
  - intros o Ho. by apply elem_of_nil in Ho.
  - intros Hc. split.
    + intros ops c' err. by apply ApplyOperations_bounds.
    + intros other c' err. unfold Merge. by apply ApplyOperations_bounds.
Qed.

Lemma ApplyOperations_Clock c ops c' err :
  ApplyOperations c ops = Ret (c', err) →
  CRDT.Clock c' = fold_left Update (Operation.Clock <$> ops) (CRDT.Clock c).
Proof.
  revert c. induction ops as [|op ops IH]; intros c; simpl.
  - by intros [= <- <-].
  - destruct (ApplyOperation c op) as [[c1 e1]|m] eqn:Ha; simpl; [| discriminate].
    apply ApplyOperation_Ret in Ha as (-> & _ & Hclk).
    intros Hr. apply IH in Hr. by rewrite Hr, Hclk.
Qed.

(** The clock and the operations of a replica do not depend on the order
    in which the operations were applied, even where the text does. *)
Theorem clock_independent_of_arrival_order c ops1 ops2 c1 c2 e1 e2 :
  ops1 ≡ₚ ops2 →
  ApplyOperations c ops1 = Ret (c1, e1) →
  ApplyOperations c ops2 = Ret (c2, e2) →
  CRDT.Clock c1 = CRDT.Clock c2 ∧
  CRDT.Operations c1 ≡ₚ CRDT.Operations c2.
Proof.
  intros Hp H1 H2.
  rewrite (ApplyOperations_Clock _ _ _ _ H1), (ApplyOperations_Clock _ _ _ _ H2).
  apply ApplyOperations_Ret in H1 as [_ ->].
  apply ApplyOperations_Ret in H2 as [_ ->].
  split; [| by rewrite Hp].
  apply fold_Update_perm. by rewrite Hp.
Qed.

End MoreCrdtFacts.

Lemma clock_independent_of_arrival_order_witness :
  ∃ c1 c2,
    @ApplyOperations go_sort_small NewCRDT [opA; opB; opC] = Ret (c1, None) ∧
    @ApplyOperations go_sort_small NewCRDT [opC; opA; opB] = Ret (c2, None) ∧
    CRDT.Clock c1 = CRDT.Clock c2 ∧
    CRDT.Operations c1 ≡ₚ CRDT.Operations c2 ∧
    CRDT.Text c1 ≠ CRDT.Text c2.
Proof.
  destruct (@ApplyOperations go_sort_small NewCRDT [opA; opB; opC])
    as [[c1 e1]|m1] eqn:H1; [| by vm_compute in H1].
  destruct (@ApplyOperations go_sort_small NewCRDT [opC; opA; opB])
    as [[c2 e2]|m2] eqn:H2; [| by vm_compute in H2].
  assert (Hperm : [opA; opB; opC] ≡ₚ [opC; opA; opB]).
  { change [opC; opA; opB] with ([opC] ++ [opA; opB]).
    change [opA; opB; opC] with ([opA; opB] ++ [opC]).
    apply Permutation_app_comm. }
  destruct (@clock_independent_of_arrival_order go_sort_small
              _ _ _ _ _ _ _ Hperm H1 H2) as [Hclk Hops].
  vm_compute in H1, H2.
  injection H1 as <- <-. injection H2 as <- <-.
  eexists _, _. split; [reflexivity|]. split; [reflexivity|].
  split; [exact Hclk|]. split; [exact Hops|].
  vm_compute. discriminate.
Defined.

(** ** Merge and the identifiers of the log *)

Section MoreMergeFacts.
Context `{SliceSort}.
Implicit Types c other : CRDT.
Implicit Types op : Operation.

Lemma Merge_log c other c' err :
  Merge c other = Ret (c', err) →
  CRDT.Operations c' =
    CRDT.Operations c ++
    List.filter (fun op => negb (has_id (existingIDs (CRDT.Operations c))
                                        (Operation.ID op)))
                (CRDT.Operations other).
Proof. unfold Merge. intros Hm. by apply ApplyOperations_Ret in Hm as [_ ->]. Qed.

Lemma elem_of_filter_bool {A : Type} (f : A → bool) (l : list A) x :
  x ∈ List.filter f l ↔ x ∈ l ∧ f x = true.
Proof. rewrite !list_elem_of_In. apply filter_In. Qed.

Lemma has_id_ids (ops : list Operation) id :
  has_id (existingIDs ops) id = true ↔ id ∈ ids ops.
Proof.
  rewrite has_id_existingIDs. unfold ids. rewrite list_elem_of_fmap.
  split; intros (o & H1 & H2); exists o; split; done.
Qed.

Lemma ids_new_ops (known ops : list Operation) id :
  id ∈ ids (List.filter (fun op => negb (has_id (existingIDs known)
                                                (Operation.ID op))) ops) ↔
  id ∈ ids ops ∧ id ∉ ids known.
Proof.
  unfold ids at 1 2. rewrite !list_elem_of_fmap. split.
  - intros (o & -> & Ho). apply elem_of_filter_bool in Ho as [Ho Hf].
    split; [by exists o|]. rewrite <- has_id_ids.
    by destruct (has_id (existingIDs known) (Operation.ID o)).
  - intros [(o & -> & Ho) Hn]. exists o. split; [done|].
    apply elem_of_filter_bool. split; [done|].
    rewrite <- has_id_ids in Hn.
    by destruct (has_id (existingIDs known) (Operation.ID o)).
Qed.

Lemma NoDup_ids_filter (f : Operation → bool) (ops : list Operation) :
  NoDup (ids ops) → NoDup (ids (List.filter f ops)).
Proof.
  unfold ids. induction ops as [|o ops IH]; simpl; [done|].
  rewrite NoDup_cons. intros [Hn Hnd]. destruct (f o); simpl; [| by apply IH].
  apply NoDup_cons. split; [| by apply IH].
  intros Hin. apply Hn. apply list_elem_of_fmap in Hin as (o' & Hid & Ho').
  apply elem_of_filter_bool in Ho' as [Ho' _].
  apply list_elem_of_fmap. by exists o'.
Qed.

Lemma Merge_ids c other c' err :
  Merge c other = Ret (c', err) →
  ∀ id, id ∈ ids (CRDT.Operations c') ↔
        id ∈ ids (CRDT.Operations c) ∨ id ∈ ids (CRDT.Operations other).
Proof.
  intros Hm id. rewrite (Merge_log _ _ _ _ Hm). unfold ids at 1.
  rewrite fmap_app, elem_of_app. fold (ids (CRDT.Operations c)).
  match goal with |- _ ∨ ?P ↔ _ => change P with
    (id ∈ ids (List.filter (fun op => negb (has_id (existingIDs (CRDT.Operations c))
                                                   (Operation.ID op)))
                           (CRDT.Operations other))) end.
  rewrite ids_new_ops.
  destruct (decide (id ∈ ids (CRDT.Operations c))); tauto.
Qed.

Lemma Merge_NoDup c other c' err :
  NoDup (ids (CRDT.Operations c)) → NoDup (ids (CRDT.Operations other)) →
  Merge c other = Ret (c', err) → NoDup (ids (CRDT.Operations c')).
Proof.
  intros Hc Ho Hm. rewrite (Merge_log _ _ _ _ Hm). unfold ids.
  rewrite fmap_app. apply NoDup_app. split; [done|]. split.
  - intros id Hid Hnew.
    change (id ∈ ids (List.filter
              (fun op => negb (has_id (existingIDs (CRDT.Operations c))
                                      (Operation.ID op)))
              (CRDT.Operations other))) in Hnew.
    apply ids_new_ops in Hnew as [_ Hn]. by apply Hn.
  - by apply NoDup_ids_filter.
Qed.

(** [Merge] keeps the identifiers of the log unique: when no identifier
    occurs twice in either log, none does in the merged log; the log of
    the receiver is kept as the front of the merged log, and the merged
    log holds the identifiers of both logs and no other. *)
Theorem Merge_keeps_ids_unique c other c' err :
  NoDup (ids (CRDT.Operations c)) →
  NoDup (ids (CRDT.Operations other)) →
  Merge c other = Ret (c', err) →
  NoDup (ids (CRDT.Operations c')) ∧
  CRDT.Operations c `prefix_of` CRDT.Operations c' ∧
  (∀ id, id ∈ ids (CRDT.Operations c') ↔
         id ∈ ids (CRDT.Operations c) ∨ id ∈ ids (CRDT.Operations other)).
Proof.
  intros Hc Ho Hm. split; [exact (Merge_NoDup _ _ _ _ Hc Ho Hm)|]. split.
  - rewrite (Merge_log _ _ _ _ Hm). by apply prefix_app_r.
  - exact (Merge_ids _ _ _ _ Hm).
Qed.

(** Merging in either direction gives the same operations: if an
    identifier stands for one operation in the two logs, and neither log
    has an identifier twice, then the log of [a] after [a.Merge(b)] and
    the log of [b] after [b.Merge(a)] are permutations of each other; and
    the two clocks are then equal, when the clock of each replica was what
    [Update] makes of the clocks of its log. *)
Theorem Merge_both_ways_same_operations a b a' b' ea eb :
  NoDup (ids (CRDT.Operations a)) →
  NoDup (ids (CRDT.Operations b)) →
  (∀ x y, x ∈ CRDT.Operations a → y ∈ CRDT.Operations b →
          Operation.ID x = Operation.ID y → x = y) →
  Merge a b = Ret (a', ea) →
  Merge b a = Ret (b', eb) →
  CRDT.Operations a' ≡ₚ CRDT.Operations b' ∧
  (clock_of_log a → clock_of_log b → CRDT.Clock a' = CRDT.Clock b').
Proof.
  intros Ha Hb Hsame Hma Hmb.
  assert (Hperm : CRDT.Operations a' ≡ₚ CRDT.Operations b'); last first.
  { split; [done|]. unfold clock_of_log. intros Hca Hcb.
    pose proof (Merge_log _ _ _ _ Hma) as Hla.
    pose proof (Merge_log _ _ _ _ Hmb) as Hlb.
    unfold Merge in Hma, Hmb.
    rewrite (ApplyOperations_Clock _ _ _ _ Hma), (ApplyOperations_Clock _ _ _ _ Hmb).
    rewrite Hca, Hcb, <- !fold_left_app, <- !fmap_app, <- Hla, <- Hlb.
    apply fold_Update_perm. by rewrite Hperm. }
  assert (Hnd : ∀ l : list Operation, NoDup (ids l) → NoDup l).
  { intros l. unfold ids. apply NoDup_fmap_1. }
  apply NoDup_Permutation.
  - apply Hnd. exact (Merge_NoDup _ _ _ _ Ha Hb Hma).
  - apply Hnd. exact (Merge_NoDup _ _ _ _ Hb Ha Hmb).
  - intros x. rewrite (Merge_log _ _ _ _ Hma), (Merge_log _ _ _ _ Hmb).
    rewrite !elem_of_app, !elem_of_filter_bool. cbv beta.
    assert (Hin : ∀ (l : list Operation) o, o ∈ l → Operation.ID o ∈ ids l).
    { intros l o Ho. unfold ids. by apply list_elem_of_fmap_2. }
    split.
    + intros [Hx|[Hx Hf]].
      * destruct (has_id (existingIDs (CRDT.Operations b)) (Operation.ID x))
          eqn:Hid; [| right; by split].
        left. apply has_id_existingIDs in Hid as (y & Hy & Hxy).
        by rewrite (Hsame x y Hx Hy (eq_sym Hxy)).
      * by left.
    + intros [Hx|[Hx Hf]].
      * destruct (has_id (existingIDs (CRDT.Operations a)) (Operation.ID x))
          eqn:Hid; [| right; by split].
        left. apply has_id_existingIDs in Hid as (y & Hy & Hxy).
        by rewrite <- (Hsame y x Hy Hx Hxy).
      * by left.
Qed.

End MoreMergeFacts.

Lemma Merge_keeps_ids_unique_witness :
  ∃ c',
    @Merge go_sort_small one_op_log (Note.CRDT client_concurrent) = Ret (c', None) ∧
    NoDup (ids (CRDT.Operations c')) ∧
    CRDT.Operations one_op_log `prefix_of` CRDT.Operations c' ∧
    (∀ id, id ∈ ids (CRDT.Operations c') ↔
           id ∈ ids (CRDT.Operations one_op_log) ∨
           id ∈ ids (CRDT.Operations (Note.CRDT client_concurrent))).
Proof.
  exists merged_log. split; [by vm_compute|].
  apply (@Merge_keeps_ids_unique go_sort_small one_op_log
           (Note.CRDT client_concurrent) merged_log None).
  - vm_compute. apply NoDup_singleton.
  - vm_compute. apply NoDup_singleton.
  - by vm_compute.
Defined.

Lemma Merge_both_ways_same_operations_witness :
  ∃ a' b',
    @Merge go_sort_small one_op_log (Note.CRDT client_concurrent) = Ret (a', None) ∧
    @Merge go_sort_small (Note.CRDT client_concurrent) one_op_log = Ret (b', None) ∧
    CRDT.Operations a' ≡ₚ CRDT.Operations b' ∧
    CRDT.Clock a' = CRDT.Clock b' ∧
    CRDT.Operations a' ≠ CRDT.Operations b'.
Proof.
  destruct (@Merge go_sort_small one_op_log (Note.CRDT client_concurrent))
    as [[a' ea]|m1] eqn:H1; [| by vm_compute in H1].
  destruct (@Merge go_sort_small (Note.CRDT client_concurrent) one_op_log)
    as [[b' eb]|m2] eqn:H2; [| by vm_compute in H2].
  assert (Hp : CRDT.Operations a' ≡ₚ CRDT.Operations b' ∧
               (clock_of_log one_op_log →
                clock_of_log (Note.CRDT client_concurrent) →
                CRDT.Clock a' = CRDT.Clock b')).
  { apply (@Merge_both_ways_same_operations go_sort_small one_op_log
             (Note.CRDT client_concurrent) a' b' ea eb); [| | | done | done].
    - vm_compute. apply NoDup_singleton.
    - vm_compute. apply NoDup_singleton.
    - intros x y Hx Hy Hid. exfalso.
      apply list_elem_of_singleton in Hx as ->.
      apply list_elem_of_singleton in Hy as ->.
      vm_compute in Hid. discriminate Hid. }
  vm_compute in H1, H2.
  injection H1 as <- <-. injection H2 as <- <-.
  eexists _, _. split; [reflexivity|]. split; [reflexivity|].
  destruct Hp as [Hp Hclk].
  split; [exact Hp|]. split; [apply Hclk; by vm_compute|].
  vm_compute. discriminate.
Defined.

(** ** Local edits: [CreateInsertOperation] and [CreateDeleteOperation]
       followed by [ApplyOperation]

    The two theorems of this part are about logs of fewer than twelve
    operations: with the new operation the slice that [rebuildText] sorts
    has at most twelve elements, and on these [sort.Slice] runs the
    insertion sort of [go_sort_small].  On longer slices the library runs
    another algorithm, and with a comparison that is not a strict weak
    order its result is not the one of the insertion sort. *)

Lemma sift_last {A : Type} (less : A → A → bool) (x : A) (front : list A) :
  (∀ y, y ∈ front → less x y = false) → sift less x front = x :: front.
Proof.
  destruct front as [|y ys]; simpl; [done|].
  intros Hall. by rewrite (Hall y) by (by left).
Qed.

(** An element that is [less] than none of the others stays last. *)
Lemma insertionSort_func_snoc {A : Type} (less : A → A → bool) (l : list A) x :
  (∀ y, y ∈ l → less x y = false) →
  insertionSort_func less (l ++ [x]) = insertionSort_func less l ++ [x].
Proof.
  intros Hall. unfold insertionSort_func. rewrite fold_left_app. simpl.
  rewrite sift_last; [done|].
  intros y Hy. apply Hall.
  rewrite <- (insertionSort_func_perm less l). unfold insertionSort_func.
  by rewrite <- Permutation_rev.
Qed.

Section LocalEdits.
Variable VectorClock_String : VectorClock → string.
Implicit Types c : CRDT.
Implicit Types op : Operation.

Lemma vc_get_nonneg_clock vc k : nonneg_clock vc → 0 ≤ vc_get vc k.
Proof.
  intros Hn. unfold vc_get. destruct (vc !! k) as [v|] eqn:Hk; simpl; [| done].
  by apply (Hn k).
Qed.

Lemma nonneg_clock_Increment vc clientID :
  nonneg_clock vc → vc_get vc clientID < 2 ^ 63 - 1 →
  nonneg_clock (Increment vc clientID).
Proof.
  intros Hn Hmax k v. unfold Increment.
  pose proof (vc_get_nonneg_clock vc clientID Hn) as H0.
  destruct (decide (k = clientID)) as [->|Hne].
  - rewrite lookup_insert_eq. intros [= <-].
    fold (vc_get vc clientID). rewrite wrap64_in_range; [lia|].
    unfold is_int64. lia.
  - rewrite lookup_insert_ne by done. apply Hn.
Qed.

(** An operation stamped with the incremented clock of the replica comes
    after every operation of the log in the order of [rebuildText]. *)
Lemma less_after_log c clientID op o :
  clock_bounds_log c → nonneg_clock (CRDT.Clock c) →
  vc_get (CRDT.Clock c) clientID < 2 ^ 63 - 1 →
  Operation.Clock op = Increment (CRDT.Clock c) clientID →
  o ∈ CRDT.Operations c → less op o = false.
Proof.
  intros Hb Hn Hmax Hclk Ho.
  pose proof (vc_get_nonneg_clock _ clientID Hn) as H0.
  destruct (reads_le_Increment (CRDT.Clock c) clientID) as [Hle Hlt];
    [unfold is_int64; lia | lia |].
  assert (Ho_le : reads_le (Operation.Clock o) (CRDT.Clock c)).
  { intros k. unfold vc_get at 1.
    destruct (Operation.Clock o !! k) as [v|] eqn:Hk; simpl.
    - by apply (Hb o Ho k v).
    - by apply vc_get_nonneg_clock. }
  assert (Hcmp : Compare (Operation.Clock op) (Operation.Clock o) = 1).
  { apply Compare_after. rewrite Hclk. split.
    - apply not_some_smaller_reads. intros k.
      specialize (Ho_le k). specialize (Hle k). lia.
    - apply some_smaller_reads. exists clientID.
      specialize (Ho_le clientID). lia. }
  unfold less. by rewrite Hcmp.
Qed.

Lemma replay_of_in_step c :
  @text_in_step go_sort_small c →
  replay [] (insertionSort_func less (CRDT.Operations c)) = Ret (CRDT.Text c).
Proof.
  unfold text_in_step, rebuildText. simpl.
  destruct (replay [] (insertionSort_func less (CRDT.Operations c)))
    as [t|m]; simpl; [| discriminate].
  intros [= Hc]. apply (f_equal CRDT.Text) in Hc. simpl in Hc. by rewrite Hc.
Qed.

(** What [ApplyOperation] does, when the sort is the insertion sort, with
    an operation that was stamped with the incremented clock of the
    replica: one step of the replay on the text as it is. *)
Lemma local_apply c clientID op :
  @text_in_step go_sort_small c →
  clock_bounds_log c → nonneg_clock (CRDT.Clock c) →
  vc_get (CRDT.Clock c) clientID < 2 ^ 63 - 1 →
  Operation.Clock op = Increment (CRDT.Clock c) clientID →
  @ApplyOperation go_sort_small
    {| CRDT.Operations := CRDT.Operations c; CRDT.Text := CRDT.Text c;
       CRDT.Clock := Increment (CRDT.Clock c) clientID |} op
  = (t ← replay_step (CRDT.Text c) op;
     Ret ({| CRDT.Operations := CRDT.Operations c ++ [op]; CRDT.Text := t;
             CRDT.Clock := Increment (CRDT.Clock c) clientID |}, None)).
Proof.
  intros Hstep Hb Hn Hmax Hclk.
  unfold ApplyOperation, rebuildText. simpl.
  rewrite Hclk, Update_self.
  rewrite insertionSort_func_snoc
    by (intros o Ho; by eapply less_after_log).
  rewrite replay_app, (replay_of_in_step c Hstep). simpl.
  destruct (replay_step (CRDT.Text c) op) as [t|m]; reflexivity.
Qed.

(** The invariants that [local_apply] asks for hold again afterwards. *)
Lemma local_apply_keeps c clientID op c' err :
  clock_bounds_log c → nonneg_clock (CRDT.Clock c) →
  vc_get (CRDT.Clock c) clientID < 2 ^ 63 - 1 →
  Operation.Clock op = Increment (CRDT.Clock c) clientID →
  @ApplyOperation go_sort_small
    {| CRDT.Operations := CRDT.Operations c; CRDT.Text := CRDT.Text c;
       CRDT.Clock := Increment (CRDT.Clock c) clientID |} op = Ret (c', err) →
  @text_in_step go_sort_small c' ∧ clock_bounds_log c' ∧
  nonneg_clock (CRDT.Clock c') ∧
  CRDT.Clock c' = Increment (CRDT.Clock c) clientID.
Proof.
  intros Hb Hn Hmax Hclk Ha.
  pose proof (vc_get_nonneg_clock _ clientID Hn) as H0.
  destruct (reads_le_Increment (CRDT.Clock c) clientID) as [Hle _];
    [unfold is_int64; lia | lia |].
  split; [exact (@ApplyOperation_in_step go_sort_small _ _ _ _ Ha)|].
  split.
  - refine (@ApplyOperation_bounds go_sort_small _ _ _ _ _ Ha).
    intros o Ho k v Hk. simpl in *. specialize (Hb o Ho k v Hk).
    specialize (Hle k). lia.
  - apply (@ApplyOperation_Ret go_sort_small) in Ha as (_ & _ & Hc).
    simpl in Hc. rewrite Hclk, Update_self in Hc. rewrite Hc.
    split; [| done]. by apply nonneg_clock_Increment.
Qed.

(** A local insert edits the text like an editor.  On a replica with
    fewer than twelve operations whose text
    is in step with its log and whose clock bounds the clocks of the log,
    the operation made by [CreateInsertOperation] and handed to
    [ApplyOperation] puts [content] at [position] of the text as it was
    (and leaves the text as it was when [position] is beyond its end),
    whatever the timestamps and client ids in the log are; the operation
    is the last entry of the log, and the replica is again as the theorem
    asks for, so that the next local edit does the same. *)
Theorem local_insert_edits_the_text c now clientID position content c1 op :
  create.CreateInsertOperation VectorClock_String c now clientID position content
    = (c1, op) →
  (List.length (CRDT.Operations c) < 12)%nat →
  @text_in_step go_sort_small c →
  clock_bounds_log c → nonneg_clock (CRDT.Clock c) →
  vc_get (CRDT.Clock c) clientID < 2 ^ 63 - 1 →
  0 ≤ position →
  ∃ c', @ApplyOperation go_sort_small c1 op = Ret (c', None) ∧
    (position ≤ len (CRDT.Text c) →
       CRDT.Text c' = take (Z.to_nat position) (CRDT.Text c) ++ content
                      ++ drop (Z.to_nat position) (CRDT.Text c)) ∧
    (len (CRDT.Text c) < position → CRDT.Text c' = CRDT.Text c) ∧
    CRDT.Operations c' = CRDT.Operations c ++ [op] ∧
    @text_in_step go_sort_small c' ∧ clock_bounds_log c' ∧
    nonneg_clock (CRDT.Clock c').
Proof.
  unfold create.CreateInsertOperation.
  intros [= <- <-] Hshort Hstep Hb Hn Hmax Hpos.
  set (op := {| Operation.ID := _ |}).
  assert (Hclk : Operation.Clock op = Increment (CRDT.Clock c) clientID)
    by apply Copy_same.
  pose proof (local_apply c clientID op Hstep Hb Hn Hmax Hclk) as Ha.
  destruct (replay_step_nonneg (CRDT.Text c) op Hpos) as [t Ht].
  rewrite Ht in Ha. simpl in Ha.
  eexists. split; [exact Ha|].
  destruct (local_apply_keeps c clientID op _ _ Hb Hn Hmax Hclk Ha)
    as (K1 & K2 & K3 & _).
  simpl. repeat split; try done.
  - intros Hle. rewrite replay_step_insert_within in Ht by (done || (simpl; lia)).
    by injection Ht as <-.
  - intros Hgt. rewrite replay_step_insert_beyond in Ht by done.
    by injection Ht as <-.
Qed.

(** A local delete removes one code point, whatever [length] says.  Under
    the same conditions (fewer than twelve operations in the log among
    them), the operation made by [CreateDeleteOperation] and
    handed to [ApplyOperation] removes the code point at [position] and no
    other, for every value of the argument [length]; at or beyond the end
    of the text it removes nothing. *)
Theorem local_delete_removes_one_code_point c now clientID position length c1 op :
  create.CreateDeleteOperation VectorClock_String c now clientID position length
    = (c1, op) →
  (List.length (CRDT.Operations c) < 12)%nat →
  @text_in_step go_sort_small c →
  clock_bounds_log c → nonneg_clock (CRDT.Clock c) →
  vc_get (CRDT.Clock c) clientID < 2 ^ 63 - 1 →
  0 ≤ position →
  ∃ c', @ApplyOperation go_sort_small c1 op = Ret (c', None) ∧
    (position < len (CRDT.Text c) →
       CRDT.Text c' = take (Z.to_nat position) (CRDT.Text c)
                      ++ drop (Z.to_nat (position + 1)) (CRDT.Text c)) ∧
    (len (CRDT.Text c) ≤ position → CRDT.Text c' = CRDT.Text c) ∧
    CRDT.Operations c' = CRDT.Operations c ++ [op] ∧
    @text_in_step go_sort_small c' ∧ clock_bounds_log c' ∧
    nonneg_clock (CRDT.Clock c').
Proof.
  unfold create.CreateDeleteOperation.
  intros [= <- <-] Hshort Hstep Hb Hn Hmax Hpos.
  set (op := {| Operation.ID := _ |}).
  assert (Hclk : Operation.Clock op = Increment (CRDT.Clock c) clientID)
    by apply Copy_same.
  pose proof (local_apply c clientID op Hstep Hb Hn Hmax Hclk) as Ha.
  destruct (replay_step_nonneg (CRDT.Text c) op Hpos) as [t Ht].
  rewrite Ht in Ha. simpl in Ha.
  eexists. split; [exact Ha|].
  destruct (local_apply_keeps c clientID op _ _ Hb Hn Hmax Hclk Ha)
    as (K1 & K2 & K3 & _).
  simpl. repeat split; try done.
  - intros Hlt. rewrite replay_step_delete_within in Ht by (done || (simpl; lia)).
    by injection Ht as <-.
  - intros Hge. rewrite replay_step_delete_beyond in Ht by done.
    by injection Ht as <-.
Qed.

End LocalEdits.

Lemma one_op_log_bounds : clock_bounds_log one_op_log ∧ nonneg_clock (CRDT.Clock one_op_log).
Proof.
  split.
  - intros o Ho k v Hk. apply list_elem_of_singleton in Ho as ->.
    change (Operation.Clock opA) with (CRDT.Clock one_op_log) in Hk.
    unfold vc_get. by rewrite Hk.
  - intros k v Hk. simpl in Hk. apply lookup_singleton_Some in Hk as [_ <-]. lia.
Qed.

Lemma local_insert_edits_the_text_witness :
  ∃ c1 op c',
    create.CreateInsertOperation clock_name one_op_log 20 "a" 1 (runes "b")
      = (c1, op) ∧
    @ApplyOperation go_sort_small c1 op = Ret (c', None) ∧
    CRDT.Text c' = runes "ab".
Proof.
  destruct (local_insert_edits_the_text clock_name one_op_log 20 "a" 1 (runes "b")
              _ _ eq_refl) as (c' & Ha & Hin & _).
  - simpl. lia.
  - by vm_compute.
  - apply one_op_log_bounds.
  - apply one_op_log_bounds.
  - by vm_compute.
  - lia.
  - eexists _, _, c'. split; [reflexivity|]. split; [exact Ha|].
    rewrite Hin; [by vm_compute|]. by vm_compute.
Defined.

Lemma local_delete_removes_one_code_point_witness :
  ∃ c1 op c',
    create.CreateDeleteOperation clock_name
      merged_log 20 "a" 0 2 = (c1, op) ∧
    @ApplyOperation go_sort_small c1 op = Ret (c', None) ∧
    CRDT.Text c' = runes "c".
Proof.
  destruct (local_delete_removes_one_code_point clock_name merged_log 20 "a" 0 2
              _ _ eq_refl) as (c' & Ha & Hin & _).
  - simpl. lia.
  - by vm_compute.
  - intros o Ho k v Hk. unfold merged_log in *. simpl in *.
    apply elem_of_cons in Ho as [->|Ho];
      [| apply list_elem_of_singleton in Ho as ->].
    + unfold opA, insert_op in Hk. simpl in Hk.
      apply lookup_singleton_Some in Hk as [<- <-]. by vm_compute.
    + unfold opC, insert_op in Hk. simpl in Hk.
      apply lookup_singleton_Some in Hk as [<- <-]. by vm_compute.
  - intros k v Hk. unfold merged_log in Hk. simpl in Hk.
    apply lookup_insert_Some in Hk as [[_ <-]|[_ Hk]]; [lia|].
    apply lookup_singleton_Some in Hk as [_ <-]. lia.
  - by vm_compute.
  - lia.
  - eexists _, _, c'. split; [reflexivity|]. split; [exact Ha|].
    rewrite Hin; by vm_compute.
Defined.

(** ** The store: saving, loading, soft deletion and the operations table *)

Section MoreStoreFacts.
Implicit Types s : Store.
Implicit Types n note : Note.
Implicit Types tbl : gmap string OpRow.

Lemma SaveNote_Ret s note s1 :
  SaveNote s note = (s1, None) →
  fault_at s 0 = None ∧ rows s1 = upsert note (rows s) ∧
  faults s1 = drop 1 (faults s).
Proof.
  unfold SaveNote, next_fault.
  destruct (fault_at s 0); [discriminate|]. by intros [= <-].
Qed.

Lemma lookup_upsert_ne note (rws : gmap string Row) id :
  id ≠ Note.ID note → upsert note rws !! id = rws !! id.
Proof.
  intros Hne. unfold upsert.
  destruct (rws !! Note.ID note); by rewrite lookup_insert_ne.
Qed.

Lemma lookup_upsert_new note (rws : gmap string Row) :
  rws !! Note.ID note = None →
  upsert note rws !! Note.ID note = Some (row_of_note note).
Proof. intros Hnone. unfold upsert. rewrite Hnone. apply lookup_insert_eq. Qed.

Lemma fault_at_succ s s1 k :
  faults s1 = drop 1 (faults s) → fault_at s1 k = fault_at s (S k).
Proof. intros Hf. unfold fault_at. by rewrite Hf, lookup_drop. Qed.

(** Save and load.  After a [SaveNote] that succeeded, a [GetNote] of the
    same id that succeeds returns the note as it was saved, except for
    [CreatedAt]: when a row with this id existed, the row keeps the
    [created_at] it had.  The rows of other ids are as they were. *)
Theorem saved_note_is_read_back s note s1 :
  SaveNote s note = (s1, None) →
  fault_at s 1 = None →
  ∃ s2 n,
    GetNote s1 (Note.ID note) = (s2, (Some n, None)) ∧
    Note.ID n = Note.ID note ∧ Note.Title n = Note.Title note ∧
    Note.Content n = Note.Content note ∧ Note.CRDT n = Note.CRDT note ∧
    Note.Clock n = Note.Clock note ∧ Note.UpdatedAt n = Note.UpdatedAt note ∧
    Note.DeletedAt n = Note.DeletedAt note ∧
    Note.CreatedAt n =
      match rows s !! Note.ID note with
      | Some old => created_at old
      | None => Note.CreatedAt note
      end ∧
    (∀ id, id ≠ Note.ID note → rows s2 !! id = rows s !! id).
Proof.
  intros Hsave Hnext. apply SaveNote_Ret in Hsave as (_ & Hrows & Hf).
  unfold GetNote, next_fault. rewrite (fault_at_succ s s1 0 Hf), Hnext. simpl.
  rewrite Hrows.
  destruct (rows s !! Note.ID note) as [old|] eqn:Hold.
  - rewrite (lookup_upsert_existing note _ old Hold). simpl.
    eexists _, _. split; [reflexivity|]. simpl. repeat split; try done.
    intros id Hne. by apply lookup_upsert_ne.
  - rewrite (lookup_upsert_new note _ Hold). simpl.
    eexists _, _. split; [reflexivity|]. simpl. repeat split; try done.
    intros id Hne. by apply lookup_upsert_ne.
Qed.





Lemma SaveOperation_Ret s tbl noteID op s1 tbl1 :
  SaveOperation s tbl noteID op = (s1, tbl1, None) →
  fault_at s 0 = None ∧ rows s1 = rows s ∧ faults s1 = drop 1 (faults s) ∧
  tbl1 = match tbl !! Operation.ID op with
         | Some _ => tbl
         | None =>
             <[Operation.ID op :=
                 {| note_id := noteID; client_id := Operation.ClientID op;
                    operation_data := op; op_clock_data := Operation.Clock op;
                    timestamp := Operation.Timestamp op |}]> tbl
         end.
Proof.
  unfold SaveOperation, next_fault.
  destruct (fault_at s 0); [discriminate|]. simpl.
  destruct (tbl !! Operation.ID op); by intros [= <- <-].
Qed.

(** The operations table keeps the first row of an id.  A [SaveOperation]
    that succeeded has left every row of the table as it was: when the id
    of the operation was taken, by whatever operation of whatever note,
    the table is unchanged and no error is reported; when it was free, the
    table has the new row under it and nothing else changed. *)
Theorem SaveOperation_keeps_first_row s tbl noteID op s1 tbl1 :
  SaveOperation s tbl noteID op = (s1, tbl1, None) →
  (∀ id r, tbl !! id = Some r → tbl1 !! id = Some r) ∧
  (is_Some (tbl !! Operation.ID op) → tbl1 = tbl) ∧
  (tbl !! Operation.ID op = None →
     ∃ r, tbl1 !! Operation.ID op = Some r ∧ note_id r = noteID ∧
          operation_data r = op ∧ timestamp r = Operation.Timestamp op) ∧
  (∀ id, id ≠ Operation.ID op → tbl1 !! id = tbl !! id).
Proof.
  intros Hs. apply SaveOperation_Ret in Hs as (_ & _ & _ & ->).
  destruct (tbl !! Operation.ID op) as [r0|] eqn:Hid.
  - split; [done|]. split; [done|]. split; [done|]. done.
  - split; [| split; [| split] ].
    + intros id r Hr. rewrite lookup_insert_ne; [done|]. congruence.
    + intros [? ?]. done.
    + intros _. eexists. rewrite lookup_insert_eq. by split.
    + intros id Hne. by rewrite lookup_insert_ne.
Qed.



End MoreStoreFacts.

Lemma saved_note_is_read_back_witness :
  ∃ s1 s2 n,
    SaveNote (store_of (world_with server_row [])) client_concurrent = (s1, None) ∧
    GetNote s1 "note-1" = (s2, (Some n, None)) ∧
    Note.Content n = runes "c" ∧ Note.UpdatedAt n = 3 ∧ Note.CreatedAt n = 1.
Proof.
  destruct (SaveNote (store_of (world_with server_row [])) client_concurrent)
    as [s1 e] eqn:Hs.
  assert (e = None) as -> by (by vm_compute in Hs; injection Hs as _ <-).
  destruct (saved_note_is_read_back _ _ _ Hs eq_refl)
    as (s2 & n & Hg & _ & _ & Hc & _ & _ & Hu & _ & Hcr & _).
  exists s1, s2, n. split; [done|]. split; [exact Hg|].
  split; [exact Hc|]. split; [exact Hu|]. rewrite Hcr. by vm_compute.
Defined.


Lemma SaveOperation_keeps_first_row_witness :
  ∃ s2 tbl2,
    SaveOperation {| rows := ∅; faults := [] |}
      {[ "a-1"%string := stored_opA ]} "note-2"
      (insert_op "a-1" "b" {[ "b"%string := 1 ]} 0 "z" 11) = (s2, tbl2, None) ∧
    tbl2 = {[ "a-1"%string := stored_opA ]}.
Proof.
  destruct (SaveOperation {| rows := ∅; faults := [] |}
              {[ "a-1"%string := stored_opA ]} "note-2"
              (insert_op "a-1" "b" {[ "b"%string := 1 ]} 0 "z" 11))
    as [[s2 tbl2] e2] eqn:H2.
  assert (e2 = None) as -> by (by vm_compute in H2; injection H2 as _ _ <-).
  destruct (SaveOperation_keeps_first_row _ _ _ _ _ _ H2) as (_ & Hsame & _).
  exists s2, tbl2. split; [reflexivity|]. apply Hsame.
  exists stored_opA. vm_compute. reflexivity.
Defined.



(** ** The sync engine: what a sync changes and what it answers *)

(** The paths through [syncNote], in the order of the code: the load
    fails; the client is behind; the server is behind (the save fails, the
    save succeeds, the merge panics); the clocks are concurrent or equal
    (the merge reports an error, the save fails, the save succeeds, the
    merge panics); no case of the switch; no row (the save fails, the save
    succeeds). *)
Ltac syncNote_paths w n :=
  unfold syncNote, GetNote, next_fault;
  destruct (fault_at (store_of w) 0) eqn:Hload; simpl;
  [| destruct (rows (store_of w) !! Note.ID n) as [row0|] eqn:Hrow0; simpl;
     [ destruct (Z.eqb_spec (Compare (Note.Clock n) (clock_data row0)) (-1))
         as [Hcmp|Hnot1];
       [| destruct (Z.eqb_spec (Compare (Note.Clock n) (clock_data row0)) 1)
            as [Hcmp|Hnot2];
          [ destruct (Merge (crdt_data row0) (Note.CRDT n))
              as [[merged me]|m] eqn:Hmerge; simpl;
            [ unfold SaveNote, next_fault; simpl; rewrite fault_at_next;
              destruct (fault_at (store_of w) 1) eqn:Hsave; simpl |]
          | destruct (Z.eqb_spec (Compare (Note.Clock n) (clock_data row0)) 0)
              as [Hcmp|Hnot3];
            [ destruct (Merge (crdt_data row0) (Note.CRDT n))
                as [[merged me]|m] eqn:Hmerge; simpl;
              [ destruct me; simpl;
                [| unfold SaveNote, next_fault; simpl; rewrite fault_at_next;
                   destruct (fault_at (store_of w) 1) eqn:Hsave; simpl ] |]
            |] ] ]
     | unfold SaveNote, next_fault; simpl; rewrite fault_at_next;
       destruct (fault_at (store_of w) 1) eqn:Hsave; simpl ] ].

Section MoreSyncFacts.
Context `{SliceSort}.
Implicit Types w : World.
Implicit Types n : Note.
Implicit Types s : Store.
Implicit Types req : SyncRequest.

Lemma row_extends_refl row : row_extends row row.
Proof. unfold row_extends, reads_le. repeat split; try done. Qed.

Lemma row_extends_trans r1 r2 r3 :
  row_extends r1 r2 → row_extends r2 r3 → row_extends r1 r3.
Proof.
  intros (A1 & A2 & A3 & A4 & A5) (B1 & B2 & B3 & B4 & B5).
  unfold row_extends. repeat split; try congruence.
  - by etrans.
  - intros k. specialize (A5 k). specialize (B5 k). lia.
Qed.

Lemma absorb_extends row n merged e now :
  Merge (crdt_data row) (Note.CRDT n) = Ret (merged, e) →
  row_extends row
    {| title := title row; content := CRDT.Text merged; crdt_data := merged;
       clock_data := Update (clock_data row) (Note.Clock n);
       created_at := created_at row; updated_at := now;
       deleted_at := deleted_at row |}.
Proof.
  intros Hm. unfold row_extends. simpl. repeat split; try done.
  - rewrite (Merge_log _ _ _ _ Hm). by apply prefix_app_r.
  - intros k. exact (proj1 (Update_never_lowers_aux _ _ k)).
Qed.

Lemma lookup_upsert_at (note : Note) (tbl : gmap string Row) (old : Row) id :
  id = Note.ID note → tbl !! id = Some old →
  upsert note tbl !! id =
    Some {| title := Note.Title note; content := Note.Content note;
            crdt_data := Note.CRDT note; clock_data := Note.Clock note;
            created_at := created_at old; updated_at := Note.UpdatedAt note;
            deleted_at := Note.DeletedAt note |}.
Proof. intros ->. apply lookup_upsert_existing. Qed.

(** What [syncNote] leaves in the table: the rows of the other notes as
    they were, and under the id of the client's note a row that extends
    the row that was there. *)
Lemma syncNote_rows w n clientID lastSync w' r :
  syncNote w n clientID lastSync = Ret (w', r) →
  (∀ id, id ≠ Note.ID n →
     rows (store_of w') !! id = rows (store_of w) !! id) ∧
  (∀ row, rows (store_of w) !! Note.ID n = Some row →
     ∃ row', rows (store_of w') !! Note.ID n = Some row' ∧ row_extends row row') ∧
  log w `prefix_of` log w'.
Proof.
  syncNote_paths w n; try discriminate; intros [= <- <-]; simpl.
  all: split;
    [ intros id Hne; try done; by apply lookup_upsert_ne
    | split; [| try done; by apply prefix_app_r] ].
  all: intros row Hrow; try discriminate.
  all: first
    [ exists row; split; [exact Hrow | apply row_extends_refl]
    | injection Hrow as <-; exists row0; split;
      [exact Hrow0 | apply row_extends_refl]
    | injection Hrow as <-; eexists; split;
      [ eapply lookup_upsert_at; [reflexivity | exact Hrow0]
      | eapply absorb_extends; exact Hmerge ] ].
Qed.

(** [syncNote] touches only the note it is given.  Whenever it returns,
    the rows of all other ids are as they were, the lines logged before
    are still there, and when the table had no row for the note, no
    conflict is reported and nothing is logged; if moreover no error is
    returned, the table now holds the note as the client sent it, with
    [UpdatedAt] set to the reading of the clock. *)
Theorem syncNote_touches_only_its_note w n clientID lastSync w' c err :
  syncNote w n clientID lastSync = Ret (w', (c, err)) →
  (∀ id, id ≠ Note.ID n →
     rows (store_of w') !! id = rows (store_of w) !! id) ∧
  log w `prefix_of` log w' ∧
  (rows (store_of w) !! Note.ID n = None →
     c = None ∧ log w' = log w ∧
     (err = None →
        rows (store_of w') !! Note.ID n =
          Some {| title := Note.Title n; content := Note.Content n;
                  crdt_data := Note.CRDT n; clock_data := Note.Clock n;
                  created_at := Note.CreatedAt n;
                  updated_at := fst (time_Now w);
                  deleted_at := Note.DeletedAt n |})).
Proof.
  intros Hs. destruct (syncNote_rows _ _ _ _ _ _ Hs) as (Hframe & _ & Hlog).
  split; [done|]. split; [done|].
  intros Hnone. revert Hs. unfold syncNote, GetNote, next_fault.
  destruct (fault_at (store_of w) 0) eqn:Hload; simpl.
  { intros [= <- <- <-]. done. }
  rewrite Hnone. simpl. unfold SaveNote, next_fault. simpl.
  rewrite fault_at_next.
  destruct (fault_at (store_of w) 1) eqn:Hsave; simpl; intros [= <- <- <-];
    simpl; [done|].
  split; [done|]. split; [done|]. intros _.
  unfold upsert. simpl. rewrite Hnone. apply lookup_insert_eq.
Qed.

Lemma syncNotes_rows w req notes acc w' cs :
  syncNotes w req notes acc = Ret (w', cs) →
  (∀ id, (∀ n, n ∈ notes → Note.ID n ≠ id) →
     rows (store_of w') !! id = rows (store_of w) !! id) ∧
  (∀ id row, rows (store_of w) !! id = Some row →
     ∃ row', rows (store_of w') !! id = Some row' ∧ row_extends row row') ∧
  log w `prefix_of` log w'.
Proof.
  revert w acc. induction notes as [|n rest IH]; intros w acc; simpl.
  - intros [= <- <-]. split; [done|]. split; [| done].
    intros id row Hrow. exists row. split; [done | apply row_extends_refl].
  - destruct (syncNote w n (SyncRequest.ClientID req)
                (SyncRequest.LastSync req !! Note.ID n))
      as [[w1 [c err]]|m] eqn:Hs; simpl; [| discriminate].
    destruct (syncNote_rows _ _ _ _ _ _ Hs) as (Hframe & Hext & Hlog).
    intros Hrest.
    assert (Hstep : ∃ w2, rows (store_of w2) = rows (store_of w1) ∧
                          log w1 `prefix_of` log w2 ∧
                          ∃ acc', syncNotes w2 req rest acc' = Ret (w', cs)).
    { destruct err as [e|].
      - eexists. split; [| split; [| eexists; exact Hrest] ]; simpl; [done|].
        by apply prefix_app_r.
      - destruct c; exists w1; (split; [done|]); (split; [done|]);
          eexists; exact Hrest. }
    destruct Hstep as (w2 & Hrows2 & Hlog2 & acc' & Hrest').
    destruct (IH _ _ Hrest') as (IHframe & IHext & IHlog).
    rewrite Hrows2 in IHframe, IHext.
    split; [| split].
    + intros id Hid. rewrite IHframe, Hframe; [done | |].
      * intros Heq. by apply (Hid n); [left|].
      * intros n' Hn'. apply Hid. by right.
    + intros id row Hrow.
      assert (∃ row1, rows (store_of w1) !! id = Some row1 ∧ row_extends row row1)
        as (row1 & Hrow1 & Hext1).
      { destruct (decide (id = Note.ID n)) as [->|Hne].
        - by apply Hext.
        - exists row. rewrite Hframe by done. split; [done|].
          apply row_extends_refl. }
      destruct (IHext id row1 Hrow1) as (row' & Hrow' & Hext').
      exists row'. split; [done|]. by eapply row_extends_trans.
    + by repeat (etrans; [eassumption|]).
Qed.

Lemma Sync_inv w req w' resp err :
  Sync w req = Ret (w', (resp, err)) →
  ∃ w1 conflicts s2 serverNotes e2,
    syncNotes w req (SyncRequest.Notes req) [] = Ret (w1, conflicts) ∧
    GetAllNotes (store_of w1) = (s2, (serverNotes, e2)) ∧
    w' = with_store w1 s2 ∧
    match e2 with
    | Some e => resp = None ∧ err = Some ("failed to get server notes: " +:+ e)
    | None =>
        err = None ∧
        resp = Some (filterNotes req serverNotes
                       {| SyncResponse.Notes := [];
                          SyncResponse.Conflicts := conflicts;
                          SyncResponse.Clock := ∅ |})
    end.
Proof.
  unfold Sync.
  destruct (syncNotes w req (SyncRequest.Notes req) []) as [[w1 cs]|m];
    simpl; [| discriminate].
  destruct (GetAllNotes (store_of w1)) as [s2 [serverNotes [e|] ] ] eqn:Hall;
    intros [= <- <- <-]; by eexists _, _, _, _, _.
Qed.

Lemma GetAllNotes_rows s s1 r : GetAllNotes s = (s1, r) → rows s1 = rows s.
Proof.
  unfold GetAllNotes, next_fault. destruct (fault_at s 0); by intros [= <- _].
Qed.

(** A sync never loses what the server holds.  Whenever [Sync] returns,
    every note that was in the table is still there with the same title,
    creation time and deletion mark; the operations of its log are still
    the front of its log, in the same order; and its clock reads at least
    what it read under every key.  A note that none of the notes of the
    request names is unchanged. *)
Theorem Sync_never_loses_server_state w req w' resp err :
  Sync w req = Ret (w', (resp, err)) →
  (∀ id row, rows (store_of w) !! id = Some row →
     ∃ row', rows (store_of w') !! id = Some row' ∧ row_extends row row') ∧
  (∀ id, (∀ n, n ∈ SyncRequest.Notes req → Note.ID n ≠ id) →
     rows (store_of w') !! id = rows (store_of w) !! id).
Proof.
  intros Hs. apply Sync_inv in Hs
    as (w1 & cs & s2 & serverNotes & e2 & Hloop & Hall & -> & _).
  apply GetAllNotes_rows in Hall. simpl. rewrite Hall.
  destruct (syncNotes_rows _ _ _ _ _ _ Hloop) as (Hframe & Hext & _).
  split; [exact Hext | exact Hframe].
Qed.

Lemma filterNotes_spec req serverNotes resp :
  let sent := List.filter
                (fun n => match SyncRequest.LastSync req !! Note.ID n with
                          | None => true
                          | Some ls => Compare (Note.Clock n) ls =? 1
                          end) serverNotes in
  SyncResponse.Notes (filterNotes req serverNotes resp)
    = SyncResponse.Notes resp ++ sent ∧
  SyncResponse.Conflicts (filterNotes req serverNotes resp)
    = SyncResponse.Conflicts resp ∧
  SyncResponse.Clock (filterNotes req serverNotes resp)
    = fold_left (fun m n => <[Note.ID n := Note.Clock n]> m) sent
                (SyncResponse.Clock resp).
Proof.
  revert resp. induction serverNotes as [|n rest IH]; intros resp; simpl.
  - by rewrite app_nil_r.
  - destruct (SyncRequest.LastSync req !! Note.ID n) as [ls|]; simpl.
    + destruct (Compare (Note.Clock n) ls =? 1); simpl; [| apply IH].
      destruct (IH {| SyncResponse.Notes := SyncResponse.Notes resp ++ [n];
                      SyncResponse.Conflicts := SyncResponse.Conflicts resp;
                      SyncResponse.Clock :=
                        <[Note.ID n := Note.Clock n]> (SyncResponse.Clock resp) |})
        as (-> & -> & ->).
      simpl. by rewrite <- app_assoc.
    + destruct (IH {| SyncResponse.Notes := SyncResponse.Notes resp ++ [n];
                      SyncResponse.Conflicts := SyncResponse.Conflicts resp;
                      SyncResponse.Clock :=
                        <[Note.ID n := Note.Clock n]> (SyncResponse.Clock resp) |})
        as (-> & -> & ->).
      simpl. by rewrite <- app_assoc.
Qed.




Lemma syncNotes_conflicts w req notes acc w' cs :
  syncNotes w req notes acc = Ret (w', cs) →
  ∃ merged_notes new,
    merged_notes `sublist_of` notes ∧ cs = acc ++ new ∧
    Forall2 conflict_of new merged_notes.
Proof.
  revert w acc. induction notes as [|n rest IH]; intros w acc; simpl.
  - intros [= <- <-]. exists [], []. by rewrite app_nil_r.
  - destruct (syncNote w n (SyncRequest.ClientID req)
                (SyncRequest.LastSync req !! Note.ID n))
      as [[w1 [c err]]|m] eqn:Hs; simpl; [| discriminate].
    destruct err as [e|].
    + intros Hrest. apply IH in Hrest as (ms & new & Hsub & -> & Hall).
      exists ms, new. split; [by apply sublist_cons|]. done.
    + destruct c as [c|].
      * intros Hrest. apply IH in Hrest as (ms & new & Hsub & -> & Hall).
        apply syncNote_conflict_inv in Hs as (row & _ & _ & _ & _ & _ & -> & _).
        exists (n :: ms), (merged_conflict n row :: new).
        split; [by apply sublist_skip|].
        split; [by rewrite <- app_assoc|].
        constructor; [| done]. by unfold conflict_of.
      * intros Hrest. apply IH in Hrest as (ms & new & Hsub & -> & Hall).
        exists ms, new. split; [by apply sublist_cons|]. done.
Qed.

(** The conflicts of a response come from the notes of the request.
    There are notes of the request, in the order of the request, one for
    each conflict record of the response and in the same order, such that
    the record carries the id and the clock of its note and the resolution
    "merged".  So a response has no more conflicts than the request has
    notes. *)
Theorem Sync_conflicts_come_from_request w req w' resp err :
  Sync w req = Ret (w', (Some resp, err)) →
  ∃ merged_notes,
    merged_notes `sublist_of` SyncRequest.Notes req ∧
    Forall2 conflict_of (SyncResponse.Conflicts resp) merged_notes ∧
    (length (SyncResponse.Conflicts resp) ≤ length (SyncRequest.Notes req))%nat.
Proof.
  intros Hs. apply Sync_inv in Hs
    as (w1 & cs & s2 & serverNotes & e2 & Hloop & Hall & -> & He2).
  destruct e2 as [e|]; [by destruct He2|]. destruct He2 as [_ [= ->] ].
  destruct (filterNotes_spec req serverNotes
              {| SyncResponse.Notes := [];
                 SyncResponse.Conflicts := cs;
                 SyncResponse.Clock := ∅ |}) as (_ & -> & _).
  simpl.
  apply syncNotes_conflicts in Hloop as (ms & new & Hsub & -> & Hall2).
  simpl. exists ms. split; [done|]. split; [done|].
  rewrite (Forall2_length _ _ _ Hall2). by apply sublist_length.
Qed.

End MoreSyncFacts.

Lemma syncNote_touches_only_its_note_witness :
  ∃ w',
    @syncNote go_sort_small (world_with server_row []) client_new "c" None
      = Ret (w', (None, None)) ∧
    rows (store_of w') !! "note-1"%string = Some server_row ∧
    updated_at <$> rows (store_of w') !! "note-2"%string = Some 100.
Proof.
  destruct (@syncNote go_sort_small (world_with server_row []) client_new "c" None)
    as [[w' [c err]]|m] eqn:Hs; [| by vm_compute in Hs].
  destruct (@syncNote_touches_only_its_note go_sort_small _ _ _ _ _ _ _ Hs)
    as (Hframe & _ & Hnew).
  assert (Hnone : rows (store_of (world_with server_row []))
                    !! Note.ID client_new = None) by (vm_compute; reflexivity).
  destruct (Hnew Hnone) as (-> & _ & Hrow).
  assert (err = None) as ->.
  { vm_compute in Hs. by injection Hs as _ <-. }
  exists w'. split; [reflexivity|]. split.
  - rewrite (Hframe "note-1"%string); [vm_compute; reflexivity|].
    vm_compute. discriminate.
  - change "note-2"%string with (Note.ID client_new).
    rewrite (Hrow eq_refl). reflexivity.
Defined.

Lemma Sync_never_loses_server_state_witness :
  ∃ w' resp row',
    @Sync go_sort_small (world_with server_row []) sync_request
      = Ret (w', (Some resp, None)) ∧
    rows (store_of w') !! "note-1"%string = Some row' ∧
    row_extends server_row row'.
Proof.
  destruct (@Sync go_sort_small (world_with server_row []) sync_request)
    as [[w' [resp err]]|m] eqn:Hs; [| by vm_compute in Hs].
  assert (Hrow : rows (store_of (world_with server_row [])) !! "note-1"%string
                 = Some server_row) by (vm_compute; reflexivity).
  destruct (proj1 (@Sync_never_loses_server_state go_sort_small _ _ _ _ _ Hs)
              "note-1"%string server_row Hrow) as (row' & Hrow' & Hext).
  assert (is_Some resp ∧ err = None) as [[resp' ->] ->].
  { vm_compute in Hs. injection Hs as _ <- <-. split; [eexists|]; reflexivity. }
  exists w', resp', row'. split; [reflexivity|]. split; [exact Hrow' | exact Hext].
Defined.


Lemma Sync_conflicts_come_from_request_witness :
  ∃ w' resp,
    @Sync go_sort_small (world_with server_row []) sync_request
      = Ret (w', (Some resp, None)) ∧
    (length (SyncResponse.Conflicts resp) ≤ 1)%nat.
Proof.
  destruct (@Sync go_sort_small (world_with server_row []) sync_request)
    as [[w' [resp err]]|m] eqn:Hs; [| by vm_compute in Hs].
  assert (is_Some resp ∧ err = None) as [[resp' ->] ->].
  { vm_compute in Hs. injection Hs as _ <- <-. split; [eexists|]; reflexivity. }
  destruct (@Sync_conflicts_come_from_request go_sort_small _ _ _ _ _ Hs)
    as (ms & _ & _ & Hlen).
  exists w', resp'. split; [reflexivity|]. exact Hlen.
Defined.

(** ** The engine: real-time operations and the creation of notes *)

Section MoreEngineFacts.
Context `{SliceSort}.
Implicit Types st : engine.State.
Implicit Types op : Operation.

(** [ApplyOperation] of the engine, run on a note that is in the table. *)
Lemma engine_ApplyOperation_run st noteID clientID op row applied e :
  outcomes st 0 = None → table st !! noteID = Some row →
  crdt.ApplyOperation (crdt_data row) op = Ret (applied, e) →
  engine.ApplyOperation st noteID clientID op =
    let now := fst (time_Now (engine.world st)) in
    let notes' := <[noteID := row_after row applied op now]> (table st) in
    match outcomes st 1 with
    | Some msg =>
        Ret (engine_after st 2 (table st) (engine.operations st),
             Some ("failed to save note: " +:+ msg))
    | None =>
        match outcomes st 2 with
        | Some msg =>
            Ret (engine_after st 3 notes' (engine.operations st),
                 Some ("failed to save operation: " +:+ msg))
        | None =>
            Ret (engine_after st 3 notes'
                   match engine.operations st !! Operation.ID op with
                   | Some _ => engine.operations st
                   | None =>
                       <[Operation.ID op :=
                           {| note_id := noteID;
                              client_id := Operation.ClientID op;
                              operation_data := op;
                              op_clock_data := Operation.Clock op;
                              timestamp := Operation.Timestamp op |}]>
                         (engine.operations st)
                   end, None)
        end
    end.
Proof.
  unfold outcomes, table. intros Hload Hrow Happ.
  pose proof (ApplyOperation_Ret _ _ _ _ Happ) as (-> & _).
  unfold engine.ApplyOperation, GetNote, next_fault. rewrite Hload. simpl.
  rewrite Hrow. simpl. rewrite Happ. simpl.
  unfold SaveNote, next_fault. simpl. rewrite fault_at_next.
  destruct (fault_at (store_of (engine.world st)) 1) eqn:Hsave; simpl.
  { unfold engine_after. by rewrite drop_drop. }
  unfold SaveOperation, next_fault. simpl.
  unfold fault_at at 1. simpl. rewrite !drop_drop, lookup_drop. simpl.
  fold (fault_at (store_of (engine.world st)) 2).
  unfold upsert. simpl. rewrite Hrow.
  destruct (fault_at (store_of (engine.world st)) 2) eqn:Hop; simpl.
  { reflexivity. }
  destruct (engine.operations st !! Operation.ID op); reflexivity.
Qed.

Lemma engine_ApplyOperation_inv st noteID clientID op st' :
  engine.ApplyOperation st noteID clientID op = Ret (st', None) →
  outcomes st 0 = None ∧
  ∃ row applied, table st !! noteID = Some row ∧
                 crdt.ApplyOperation (crdt_data row) op = Ret (applied, None).
Proof.
  unfold outcomes, table, engine.ApplyOperation, GetNote, next_fault.
  destruct (fault_at (store_of (engine.world st)) 0); simpl; [discriminate|].
  destruct (rows (store_of (engine.world st)) !! noteID) as [row|]; simpl;
    [| discriminate].
  destruct (crdt.ApplyOperation (crdt_data row) op) as [[applied e]|m] eqn:Happ;
    simpl; [| discriminate].
  pose proof (ApplyOperation_Ret _ _ _ _ Happ) as (-> & _).
  intros _. split; [done|]. by exists row, applied.
Qed.

(** A real-time operation that succeeds.  When [ApplyOperation] of the
    engine returns no error, the note was in the table; its row now holds
    the log with the operation appended, the text that [rebuildText] makes
    of that log as its content, the clock after [Update] with the clock of
    the operation, and the reading of the clock as [updated_at]; title,
    creation time and deletion mark are as they were (a deleted note
    takes operations like any other); no other note changed; and the
    table of operations has a row under the id of the operation, which is
    the operation itself unless the id was taken. *)
Theorem engine_ApplyOperation_applies_and_logs st noteID clientID op st' :
  engine.ApplyOperation st noteID clientID op = Ret (st', None) →
  ∃ row applied,
    table st !! noteID = Some row ∧
    crdt.ApplyOperation (crdt_data row) op = Ret (applied, None) ∧
    table st' !! noteID =
      Some (row_after row applied op (fst (time_Now (engine.world st)))) ∧
    CRDT.Operations applied = CRDT.Operations (crdt_data row) ++ [op] ∧
    text_in_step applied ∧
    (∀ id, id ≠ noteID → table st' !! id = table st !! id) ∧
    (∃ r, engine.operations st' !! Operation.ID op = Some r ∧
          (engine.operations st !! Operation.ID op = None →
             operation_data r = op ∧ note_id r = noteID)) ∧
    (∀ id, id ≠ Operation.ID op →
       engine.operations st' !! id = engine.operations st !! id).
Proof.
  intros Hrun.
  destruct (engine_ApplyOperation_inv _ _ _ _ _ Hrun)
    as (Hload & row & applied & Hrow & Happ).
  rewrite (engine_ApplyOperation_run _ _ _ _ _ _ _ Hload Hrow Happ) in Hrun.
  cbv zeta in Hrun.
  destruct (outcomes st 1); [discriminate|].
  destruct (outcomes st 2); [discriminate|].
  injection Hrun as <-.
  exists row, applied. split; [done|]. split; [done|].
  unfold table at 1 3. simpl.
  split; [apply lookup_insert_eq|].
  split; [by apply ApplyOperation_Ret in Happ as (_ & ? & _)|].
  split; [by eapply ApplyOperation_in_step|].
  split; [intros id Hne; by apply lookup_insert_ne|].
  destruct (engine.operations st !! Operation.ID op) as [r0|] eqn:Hid.
  - split; [| done]. exists r0. split; [done|]. done.
  - split.
    + eexists. split; [apply lookup_insert_eq|]. done.
    + intros id Hne. by apply lookup_insert_ne.
Qed.

(** A real-time operation for a note that the table does not hold is
    refused: [ApplyOperation] of the engine returns an error, "note not
    found" when the load itself succeeded, and neither table changes. *)
Lemma engine_ApplyOperation_needs_the_note st noteID clientID op st' err :
  table st !! noteID = None →
  engine.ApplyOperation st noteID clientID op = Ret (st', err) →
  is_Some err ∧
  (outcomes st 0 = None → err = Some ("note not found: " +:+ noteID)) ∧
  table st' = table st ∧
  engine.operations st' = engine.operations st.
Proof.
  unfold outcomes, table, engine.ApplyOperation, GetNote, next_fault.
  intros Hnone.
  destruct (fault_at (store_of (engine.world st)) 0); simpl.
  - intros [= <- <-]. simpl. split; [by eexists|]. done.
  - rewrite Hnone. simpl. intros [= <- <-]. simpl. split; [by eexists|]. done.
Qed.

Lemma outcomes_engine_after st calls notes ops k :
  outcomes (engine_after st calls notes ops) k = outcomes st (calls + k).
Proof. unfold outcomes, fault_at, engine_after. simpl. by rewrite lookup_drop. Qed.

(** The two writes of a real-time operation are not one.  When the note
    is saved and the save of the operation then fails, [ApplyOperation] of
    the engine returns the error, the table of operations is as it was,
    and the stored note has the operation in its log all the same.  When
    the caller then sends the operation again and all goes well, the log
    of the note holds the operation twice. *)
Theorem engine_ApplyOperation_is_not_atomic st noteID clientID op row c1 e1 msg :
  outcomes st 0 = None → outcomes st 1 = None → outcomes st 2 = Some msg →
  table st !! noteID = Some row →
  crdt.ApplyOperation (crdt_data row) op = Ret (c1, e1) →
  ∃ st1,
    engine.ApplyOperation st noteID clientID op
      = Ret (st1, Some ("failed to save operation: " +:+ msg)) ∧
    engine.operations st1 = engine.operations st ∧
    (∃ row1, table st1 !! noteID = Some row1 ∧ crdt_data row1 = c1 ∧
             CRDT.Operations c1 = CRDT.Operations (crdt_data row) ++ [op]) ∧
    (∀ c2 e2,
       crdt.ApplyOperation c1 op = Ret (c2, e2) →
       outcomes st 3 = None → outcomes st 4 = None → outcomes st 5 = None →
       ∃ st2 row2,
         engine.ApplyOperation st1 noteID clientID op = Ret (st2, None) ∧
         table st2 !! noteID = Some row2 ∧
         CRDT.Operations (crdt_data row2)
           = CRDT.Operations (crdt_data row) ++ [op; op]).
Proof.
  intros Hload Hsave Hop Hrow Happ.
  rewrite (engine_ApplyOperation_run _ _ _ _ _ _ _ Hload Hrow Happ).
  cbv zeta. rewrite Hsave, Hop.
  eexists. split; [reflexivity|]. split; [reflexivity|].
  pose proof (ApplyOperation_Ret _ _ _ _ Happ) as (_ & Hlog1 & _).
  split.
  { eexists. unfold table at 1. simpl. rewrite lookup_insert_eq.
    split; [reflexivity|]. by split. }
  intros c2 e2 Happ2 H3 H4 H5.
  set (st1 := engine_after st 3 _ _).
  assert (Hrow1 : table st1 !! noteID
                  = Some (row_after row c1 op (fst (time_Now (engine.world st)))))
    by (unfold table, st1; simpl; apply lookup_insert_eq).
  assert (Hload1 : outcomes st1 0 = None)
    by (unfold st1; by rewrite outcomes_engine_after).
  rewrite (engine_ApplyOperation_run st1 noteID clientID op _ c2 e2
             Hload1 Hrow1 Happ2).
  cbv zeta. subst st1. rewrite !outcomes_engine_after. simpl.
  rewrite H4, H5.
  eexists _, _. split; [reflexivity|].
  unfold table at 1. simpl. split; [apply lookup_insert_eq|]. simpl.
  pose proof (ApplyOperation_Ret _ _ _ _ Happ2) as (_ & Hlog2 & _).
  simpl in Hlog2. by rewrite Hlog2, Hlog1, <- app_assoc.
Qed.

End MoreEngineFacts.

Section CreateNoteFacts.
Context `{SliceSort}.
Variable VectorClock_String : VectorClock → string.
Implicit Types st : engine.State.

Lemma Increment_empty clientID : Increment ∅ clientID = {[ clientID := 1 ]}.
Proof. unfold Increment, vc_get. rewrite lookup_empty. simpl. apply insert_empty. Qed.

(** The creation of a note.  When [CreateNote] returns a note, the note
    has the given id, title and content, the clock {clientID: 1}, and a
    CRDT whose text is the content: a new CRDT when the content is empty
    (so that the clock of the CRDT is empty while the clock of the note is
    not), and otherwise a CRDT whose log is the one insert of the content
    at position 0, stamped {clientID: 1}.  The table holds the note under
    its id, in place of whatever was there, except that the row keeps the
    creation time of a row that was there; no other row changed; and the
    table of operations is as it was: the initial insert is not recorded
    there. *)
Theorem engine_CreateNote_stores_content st id title content clientID st' note :
  engine.CreateNote VectorClock_String st id title content clientID
    = Ret (st', (Some note, None)) →
  Note.ID note = id ∧ Note.Title note = title ∧ Note.Content note = content ∧
  CRDT.Text (Note.CRDT note) = content ∧
  Note.Clock note = {[ clientID := 1 ]} ∧
  (content = [] → Note.CRDT note = NewCRDT) ∧
  (content ≠ [] →
     ∃ op, CRDT.Operations (Note.CRDT note) = [op] ∧
           Operation.Type_ op = "insert"%string ∧ Operation.Position op = 0 ∧
           Operation.Content op = content ∧
           Operation.Clock op = {[ clientID := 1 ]} ∧
           CRDT.Clock (Note.CRDT note) = {[ clientID := 1 ]}) ∧
  (∃ row, table st' !! id = Some row ∧
          crdt_data row = Note.CRDT note ∧ store.content row = content ∧
          clock_data row = Note.Clock note ∧
          created_at row = match table st !! id with
                           | Some old => created_at old
                           | None => Note.CreatedAt note
                           end) ∧
  (∀ id', id' ≠ id → table st' !! id' = table st !! id') ∧
  engine.operations st' = engine.operations st.
Proof.
  unfold engine.CreateNote, table. simpl. rewrite Increment_empty.
  case_bool_decide as Hcontent.
  - subst content. unfold SaveNote, next_fault. simpl.
    destruct (fault_at (store_of (engine.world st)) 0); simpl; [discriminate|].
    intros [= <- <-]. simpl. repeat (split; [done|]).
    split; [| split; [| done] ].
    + destruct (rows (store_of (engine.world st)) !! id) as [old|] eqn:Hold.
      * eexists. split; [eapply lookup_upsert_at; [reflexivity | exact Hold]|].
        done.
      * eexists. split; [by apply lookup_upsert_new|]. done.
    + intros id' Hne. by apply lookup_upsert_ne.
  - unfold crdt.ApplyOperation, rebuildText. simpl.
    rewrite sort_Slice_singleton. simpl.
    rewrite Copy_same, Update_self, app_nil_r.
    unfold SaveNote, next_fault. simpl.
    destruct (fault_at (store_of (engine.world st)) 0); simpl; [discriminate|].
    intros [= <- <-]. simpl. repeat (split; [done|]).
    split; [eexists; by repeat split|].
    split; [| split; [| done] ].
    + destruct (rows (store_of (engine.world st)) !! id) as [old|] eqn:Hold.
      * eexists. split; [eapply lookup_upsert_at; [reflexivity | exact Hold]|].
        done.
      * eexists. split; [by apply lookup_upsert_new|]. done.
    + intros id' Hne. by apply lookup_upsert_ne.
Qed.

End CreateNoteFacts.

Lemma engine_ApplyOperation_applies_and_logs_witness :
  ∃ st' row',
    @engine.ApplyOperation go_sort_small (engine_with server_row [])
      "note-1" "c" opC = Ret (st', None) ∧
    table st' !! "note-1"%string = Some row' ∧
    store.content row' = runes "ac" ∧ updated_at row' = 100.
Proof.
  destruct (@engine.ApplyOperation go_sort_small (engine_with server_row [])
              "note-1" "c" opC) as [[st' err]|m] eqn:Hrun;
    [| vm_compute in Hrun; discriminate Hrun].
  assert (err = None) as ->.
  { vm_compute in Hrun. injection Hrun as _ <-. reflexivity. }
  destruct (@engine_ApplyOperation_applies_and_logs go_sort_small _ _ _ _ _ Hrun)
    as (row & applied & Hrow & Happ & Hrow' & _).
  assert (row = server_row) as ->.
  { vm_compute in Hrow. injection Hrow as <-. reflexivity. }
  eexists st', _. split; [reflexivity|]. split; [exact Hrow'|].
  vm_compute in Happ. injection Happ as <-.
  split; vm_compute; reflexivity.
Defined.

Lemma engine_ApplyOperation_is_not_atomic_witness :
  ∃ st1 st2 row2,
    @engine.ApplyOperation go_sort_small
      (engine_with server_row [None; None; Some "disk full"%string])
      "note-1" "c" opC
      = Ret (st1, Some "failed to save operation: disk full"%string) ∧
    @engine.ApplyOperation go_sort_small st1 "note-1" "c" opC = Ret (st2, None) ∧
    table st2 !! "note-1"%string = Some row2 ∧
    CRDT.Operations (crdt_data row2) = [opA; opC; opC].
Proof.
  destruct (@ApplyOperation go_sort_small (crdt_data server_row) opC)
    as [[c1 e1]|m1] eqn:H1; [| vm_compute in H1; discriminate H1].
  destruct (@ApplyOperation go_sort_small c1 opC)
    as [[c2 e2]|m2] eqn:H2;
    [| vm_compute in H1; injection H1 as <- _; vm_compute in H2; discriminate H2].
  assert (Hrow : table (engine_with server_row [None; None; Some "disk full"%string])
                   !! "note-1"%string = Some server_row)
    by (vm_compute; reflexivity).
  destruct (@engine_ApplyOperation_is_not_atomic go_sort_small
              (engine_with server_row [None; None; Some "disk full"%string])
              "note-1" "c" opC server_row c1 e1 "disk full"
              eq_refl eq_refl eq_refl Hrow H1)
    as (st1 & Hfail & _ & _ & Hretry).
  destruct (Hretry c2 e2 H2 eq_refl eq_refl eq_refl)
    as (st2 & row2 & Hok & Hrow2 & Hlog).
  exists st1, st2, row2.
  split; [exact Hfail|]. split; [exact Hok|]. split; [exact Hrow2|].
  rewrite Hlog. reflexivity.
Defined.

Lemma engine_CreateNote_stores_content_witness :
  ∃ st' note row,
    @engine.CreateNote go_sort_small clock_name (engine_with server_row [])
      "note-1" "Shopping" (runes "hi") "c" = Ret (st', (Some note, None)) ∧
    CRDT.Text (Note.CRDT note) = runes "hi" ∧
    table st' !! "note-1"%string = Some row ∧
    created_at row = 1 ∧ Note.CreatedAt note = 100.
Proof.
  destruct (@engine.CreateNote go_sort_small clock_name (engine_with server_row [])
              "note-1" "Shopping" (runes "hi") "c")
    as [[st' [note err]]|m] eqn:Hrun; [| vm_compute in Hrun; discriminate Hrun].
  pose proof Hrun as Hval. vm_compute in Hval.
  assert (Hshape : is_Some note ∧ err = None).
  { injection Hval as _ <- <-. split; [eexists|]; reflexivity. }
  destruct Hshape as [[note' ->] ->].
  destruct (@engine_CreateNote_stores_content go_sort_small clock_name
              _ _ _ _ _ _ _ Hrun)
    as (_ & _ & _ & Htext & _ & _ & _ & (row & Hrow & _ & _ & _ & Hcreated) & _).
  exists st', note', row. split; [reflexivity|]. split; [exact Htext|].
  split; [exact Hrow|]. split.
  - rewrite Hcreated. vm_compute. reflexivity.
  - injection Hval as _ <-. reflexivity.
Defined.
